(** * commanderbot-ext: the help-chat report core

    A shallow embedding of [commanderbot_ext/help_chat/help_chat_report.py]
    and of the sibling [help_chat_nom_context.py]: the line batcher
    ([batch_summary_text]), the leaderboard ([get_user_results],
    [build_summary_lines]), the summary sender ([summarize]) and the
    channel scan ([HelpChatReportBuildContext.build], [HelpChatNomContext.run]).

    Conventions.
    - A Python [str] is a [string]; a character stands for one code point, so
      [len] is [String.length] read as an [int] (a [Z]).
    - A Python [int] is a [Z].
    - A [dict] whose iteration order is observed (the user table) is an
      association list in insertion order.
    - An exception is a value of [Exn]; code that may raise returns a sum. *)

From stdpp Require Import base list strings pretty sorting.
From Stdlib Require Import ZArith Lia Ascii.

Local Open Scope Z_scope.

(** ** Python strings *)

Module PyStr.

(** The one-character string ["\n"]. *)
Definition nl : string := String "010"%char "".

(** [len(s)]. *)
Definition len (s : string) : Z := Z.of_nat (String.length s).

(** [sep.join(parts)]. *)
Fixpoint join (sep : string) (parts : list string) : string :=
  match parts with
  | [] => ""
  | [p] => p
  | p :: rest => p +:+ sep +:+ join sep rest
  end.

(** Truth value of a [str]: the empty string is falsy. *)
Definition truthy (s : string) : bool :=
  match s with
  | EmptyString => false
  | String _ _ => true
  end.

(** [str(n)] for an [int]. *)
Definition str_of_int (n : Z) : string := pretty n.

End PyStr.

Import PyStr.

(** ** The line batcher

    [HelpChatReport.batch_summary_text] and
    [HelpChatNomContext.batch_summary_text] run the same loop; they differ
    only in where the lines and the length limit come from.  [batch_loop] is
    that loop, with the local variable [batch] as its accumulator; the list
    it returns is the sequence of yielded values. *)

Fixpoint batch_loop (split_length : Z) (batch : string) (lines : list string)
  : list string :=
  match lines with
  | [] => if truthy batch then [batch] else []
  | line :: rest =>
      let would_be_text := batch +:+ nl +:+ line in
      if len would_be_text <=? split_length
      then batch_loop split_length would_be_text rest
      else batch :: batch_loop split_length line rest
  end.

(** The generator started with [batch = ""]. *)
Definition batch_lines (split_length : Z) (lines : list string) : list string :=
  batch_loop split_length "" lines.

(** ** Exceptions *)

Inductive Exn : Type :=
| IndexError                     (* [batches[0]] on an empty list *)
| TypeError                      (* arithmetic on [None] *)
| HTTPException (status : Z).    (* raised by the history iterator *)

(** ** Dates

    [DATE_FMT_YYYY_MM_DD] and [DATE_FMT_YYYY_MM_DD_HH_MM_SS] are imported
    from [help_chat/utils], which is outside the sources at hand. *)

Record datetime : Type := {
  year : Z; month : Z; day : Z;
  hour : Z; minute : Z; second : Z
}.

(** Zero-padded decimal of a non-negative number. *)
Definition zero_pad (width : nat) (n : Z) : string :=
  let digits := str_of_int n in
  String.string_of_list_ascii
    (replicate (width - String.length digits) "0"%char) +:+ digits.

(** Modelled from the spec: the constant [DATE_FMT_YYYY_MM_DD] of the missing
    [utils] module; "date formatting for display ([YYYY-MM-DD], ...)". *)
Definition strftime_YYYY_MM_DD (d : datetime) : string :=
  zero_pad 4 (year d) +:+ "-" +:+ zero_pad 2 (month d) +:+ "-" +:+ zero_pad 2 (day d).

(** Modelled from the spec: the constant [DATE_FMT_YYYY_MM_DD_HH_MM_SS] of the
    missing [utils] module; "[YYYY-MM-DD HH:MM:SS]". *)
Definition strftime_YYYY_MM_DD_HH_MM_SS (d : datetime) : string :=
  strftime_YYYY_MM_DD d +:+ " " +:+ zero_pad 2 (hour d) +:+ ":" +:+
  zero_pad 2 (minute d) +:+ ":" +:+ zero_pad 2 (second d).

(** ** Insertion-ordered dictionaries

    A Python [dict] iterates in insertion order and the leaderboard observes
    that order, so a dictionary is an association list without duplicate
    keys, oldest key first. *)

Module Dict.
Section Ops.
Context {K V : Type} `{EqDecision K}.

(** [d.get(k)] *)
Fixpoint get (k : K) (d : list (K * V)) : option V :=
  match d with
  | [] => None
  | (k', v) :: rest => if decide (k' = k) then Some v else get k rest
  end.

(** [d[k] = v]: overwrite in place, or append a new key. *)
Fixpoint set (k : K) (v : V) (d : list (K * V)) : list (K * V) :=
  match d with
  | [] => [(k, v)]
  | (k', v') :: rest =>
      if decide (k' = k) then (k, v) :: rest else (k', v') :: set k v rest
  end.

(** [d[k]] on a [defaultdict]: a missing key is first inserted with the
    default value ([__missing__]); returns the value and the dictionary
    as it is after the access. *)
Definition getitem_default (default : V) (k : K) (d : list (K * V))
  : V * list (K * V) :=
  match get k d with
  | Some v => (v, d)
  | None => (default, set k default d)
  end.

Definition keys (d : list (K * V)) : list K := d.*1.
Definition values (d : list (K * V)) : list V := d.*2.
End Ops.
End Dict.

(** ** Channels and per-channel state *)

Definition IDType : Type := Z.

Record TextChannel : Type := {
  text_channel_id : IDType;
  mention : string
}.

(** [HelpChannel] is declared in [help_chat_cache], outside the sources at
    hand; the code only calls [help_channel.channel(ctx)] on it, modelled as
    a field. *)
Record HelpChannel : Type := {
  help_channel_id : IDType;
  channel_of : TextChannel
}.

Inductive ChannelStatus : Type :=
| INCOMPLETE
| IN_PROGRESS
| COMPLETE.

Global Instance ChannelStatus_eq_dec : EqDecision ChannelStatus.
Proof. solve_decision. Defined.

Record ChannelState : Type := {
  help_channel : HelpChannel;
  channel : TextChannel;
  status : ChannelStatus;
  total_messages : option Z;
  total_message_length : option Z
}.

(** [ChannelState(help_channel, channel)] with the dataclass defaults. *)
Definition ChannelState_init (hc : HelpChannel) (c : TextChannel) : ChannelState :=
  {| help_channel := hc; channel := c; status := INCOMPLETE;
     total_messages := None; total_message_length := None |}.

(** ** Summary options *)

Record HelpChatSummaryOptions : Type := {
  split_length : Z;
  max_rows : Z;
  min_score : Z
}.

(** The [__init__] that [@dataclass] generates: it stores its arguments.
    The class declares no [__post_init__], so nothing is checked. *)
Definition HelpChatSummaryOptions_init (split_length max_rows min_score : Z)
  : Exn + HelpChatSummaryOptions :=
  inr {| split_length := split_length; max_rows := max_rows;
         min_score := min_score |}.

(** ** The report *)

Definition DailyKey : Type := Z * Z * Z.
Definition UserRecord : Type := list (DailyKey * Z).
Definition UserTable : Type := list (IDType * UserRecord).

Record HelpChatReport : Type := {
  after : datetime;
  before : datetime;
  built_at : datetime;
  channel_states : list ChannelState;
  user_table : UserTable
}.

(** A row of the leaderboard: [(user_id, score, days_active)]. *)
Definition Row : Type := IDType * Z * Z.

Definition row_score (row : Row) : Z := row.1.2.

(** [sum(user_record.values())] *)
Definition sum_ints (xs : list Z) : Z := foldl Z.add 0 xs.

Definition get_user_results (self : HelpChatReport) : list Row :=
  map (λ item : IDType * UserRecord,
         let '(user_id, user_record) := item in
         (user_id, sum_ints (Dict.values user_record), Z.of_nat (length user_record)))
      (user_table self).

(** [sorted(xs, key=key)]: Python's sort is stable and ascending in the key.
    A stable sort is determined by its input, so insertion sort stands for
    it: [insert_by_key] puts [x] in front of the first element whose key is
    not smaller, hence in front of its equals that came later in the input. *)
Fixpoint insert_by_key {A} (key : A → Z) (x : A) (l : list A) : list A :=
  match l with
  | [] => [x]
  | y :: rest =>
      if key x <=? key y then x :: y :: rest
      else y :: insert_by_key key x rest
  end.

Definition sorted {A} (key : A → Z) (l : list A) : list A :=
  foldr (insert_by_key key) [] l.

(** The header line of the summary. *)
Definition summary_header (self : HelpChatReport) (options : HelpChatSummaryOptions)
  (count_results : Z) : string :=
  let after_str := strftime_YYYY_MM_DD (after self) in
  let before_str := strftime_YYYY_MM_DD (before self) in
  ("Showing the top " +:+ str_of_int (max_rows options) +:+ " results (of "
     +:+ str_of_int count_results +:+ ")")
  +:+ (" with a score of at least " +:+ str_of_int (min_score options) +:+ ".")
  +:+ " A user's score is determined by summing the length of all their messages"
  +:+ (" from " +:+ after_str +:+ " up to " +:+ before_str +:+ ".")
  +:+ nl.

(** The loop [for i, row in enumerate(sorted_user_results)] with its [break]:
    the rows for which a line is yielded, [i] being the running index. *)
Fixpoint rows_loop (options : HelpChatSummaryOptions) (i : Z) (rows : list Row)
  : list Row :=
  match rows with
  | [] => []
  | row :: rest =>
      let '(user_id, score, days_active) := row in
      if (i >=? max_rows options) || (score <? min_score options) then []
      else row :: rows_loop options (i + 1) rest
  end.

Definition sorted_user_results (self : HelpChatReport) : list Row :=
  sorted (λ row, - row_score row) (get_user_results self).

(** The rows that [build_summary_lines] prints after the header. *)
Definition ranked_rows (self : HelpChatReport) (options : HelpChatSummaryOptions)
  : list Row :=
  rows_loop options 0 (sorted_user_results self).

Definition row_line (row : Row) : string :=
  let '(user_id, score, days_active) := row in
  ("<@" +:+ str_of_int user_id +:+ ">: **" +:+ str_of_int score +:+ "**")
  +:+ (" (" +:+ str_of_int days_active +:+ " days active)").

Definition build_summary_lines (self : HelpChatReport)
  (options : HelpChatSummaryOptions) : list string :=
  let count_results := Z.of_nat (length (sorted_user_results self)) in
  summary_header self options count_results
    :: map row_line (ranked_rows self options).

Definition batch_summary_text (self : HelpChatReport)
  (options : HelpChatSummaryOptions) : list string :=
  batch_lines (split_length options) (build_summary_lines self options).

(** ** Sending the summary *)

Record Embed : Type := {
  embed_type : string;
  title : option string;
  description : string;
  colour : option Z;
  footer : option string
}.

Definition make_summary_batch_embed (self : HelpChatReport)
  (batch_no count_batches : Z) (text : string) : Embed :=
  let timestamp_str := strftime_YYYY_MM_DD_HH_MM_SS (built_at self) in
  {| embed_type := "rich";
     title := Some ("Help-chat Report " +:+ timestamp_str);
     description := text;
     colour := Some 7844437 (* 0x77B255 *);
     footer := if 1 <? count_batches
               then Some (str_of_int batch_no +:+ " of " +:+ str_of_int count_batches)
               else None |}.

(** What [summarize] hands to the chat client, in order. *)
Inductive Sent : Type :=
| Reply (content : string) (embed : Embed)       (* [ctx.reply] *)
| Send (content : option string) (embed : Embed). (* [ctx.send] *)

(** [summarize(ctx, split_length=.., max_rows=.., min_score=..)]: the
    messages sent, or the exception raised before anything is sent. *)
Definition summarize (self : HelpChatReport) (split_length max_rows min_score : Z)
  : Exn + list Sent :=
  match HelpChatSummaryOptions_init split_length max_rows min_score with
  | inl e => inl e
  | inr options =>
      let batches := batch_summary_text self options in
      let count_batches := Z.of_nat (length batches) in
      match batches with
      | [] => inl IndexError
      | first_batch :: rest =>
          inr (Reply "The results are in:"
                 (make_summary_batch_embed self 1 count_batches first_batch)
               :: imap (λ i batch,
                          Send None (make_summary_batch_embed self
                                       (Z.of_nat i + 2) count_batches batch))
                       rest)
      end
  end.

(** ** Messages and the history capability *)

(** A [discord.Message], as far as the scan reads it.  [content] is [None]
    when [isinstance(message.content, str)] is false. *)
Record Message : Type := {
  content : option string;
  author_id : IDType;
  created_at : datetime
}.

(** The asynchronous iterator returned by [channel.history(...)]: it yields
    messages one at a time and ends, or raises while being advanced. *)
Inductive History : Type :=
| HistoryEnd
| HistoryYield (message : Message) (rest : History)
| HistoryRaise (e : Exn).

(** The chat platform as the scan sees it. *)
Record Context : Type := {
  history : TextChannel → datetime → datetime → History;
  utcnow : datetime
}.

(** ** The report build context

    [BuildContext] holds the attributes of [HelpChatReportBuildContext] that
    [build] writes, then what the run does to the outside: [progress], the
    channel states each [update] rendered (oldest first), and [fetched],
    the channels whose history was requested.  [observed] is a history
    variable: the value of [_channel_states] after [reset] and after every
    later write to a channel state. *)

Record BuildContext : Type := {
  _progress_message : bool;           (* [self._progress_message is not None] *)
  _built_at : option datetime;
  _channel_states : list ChannelState;
  _user_table : UserTable;
  progress : list (list ChannelState);
  fetched : list TextChannel;
  observed : list (list ChannelState)
}.

Definition BuildContext_init : BuildContext :=
  {| _progress_message := false; _built_at := None; _channel_states := [];
     _user_table := []; progress := []; fetched := []; observed := [] |}.

(** A state-and-exception monad over the build context. *)
Module Run.

Definition M (A : Type) : Type := BuildContext → (Exn + A) * BuildContext.

Definition ret {A} (a : A) : M A := λ s, (inr a, s).

Definition bind {A B} (m : M A) (k : A → M B) : M B :=
  λ s, match m s with
       | (inl e, s') => (inl e, s')
       | (inr a, s') => k a s'
       end.

Definition raise {A} (e : Exn) : M A := λ s, (inl e, s).

Definition gets {A} (f : BuildContext → A) : M A := λ s, (inr (f s), s).

Definition modify (f : BuildContext → BuildContext) : M unit :=
  λ s, (inr tt, f s).

(** [for x in xs: body(x)] *)
Fixpoint for_each {A} (body : A → M unit) (xs : list A) : M unit :=
  match xs with
  | [] => ret tt
  | x :: rest => bind (body x) (λ _, for_each body rest)
  end.

End Run.

Import Run.

Global Instance M_ret : MRet M := @Run.ret.
Global Instance M_bind : MBind M := λ A B k m, Run.bind m k.

(** Writing one attribute of the channel state at position [i]; the list
    object itself is never resized during a run. *)
Definition write_state (i : nat) (f : ChannelState → ChannelState) : M unit :=
  modify (λ s,
    let states := alter f i (_channel_states s) in
    {| _progress_message := _progress_message s; _built_at := _built_at s;
       _channel_states := states; _user_table := _user_table s;
       progress := progress s; fetched := fetched s;
       observed := observed s ++ [states] |}).

Definition set_status (v : ChannelStatus) (cs : ChannelState) : ChannelState :=
  {| help_channel := help_channel cs; channel := channel cs; status := v;
     total_messages := total_messages cs;
     total_message_length := total_message_length cs |}.

Definition set_total_messages (v : option Z) (cs : ChannelState) : ChannelState :=
  {| help_channel := help_channel cs; channel := channel cs; status := status cs;
     total_messages := v;
     total_message_length := total_message_length cs |}.

Definition set_total_message_length (v : option Z) (cs : ChannelState) : ChannelState :=
  {| help_channel := help_channel cs; channel := channel cs; status := status cs;
     total_messages := total_messages cs;
     total_message_length := v |}.

(** Reading the channel state at position [i]. *)
Definition read_state (i : nat) : M ChannelState :=
  states ← gets _channel_states;
  match states !! i with
  | Some cs => ret cs
  | None => raise IndexError
  end.

(** [x += n] on an attribute typed [Optional[int]]. *)
Definition iadd (x : option Z) (n : Z) : M Z :=
  match x with
  | Some v => ret (v + n)
  | None => raise TypeError
  end.

Section Build.

Variable ctx : Context.
Variable help_channels : list HelpChannel.
Variables after_ before_ : datetime.

Definition reset : M unit :=
  modify (λ s,
    let states :=
      map (λ help_channel, ChannelState_init help_channel (channel_of help_channel))
          help_channels in
    {| _progress_message := false; _built_at := Some (utcnow ctx);
       _channel_states := states; _user_table := [];
       progress := progress s; fetched := fetched s;
       observed := [states] |}).

Definition get_states_with_status (v : ChannelStatus) (states : list ChannelState)
  : list ChannelState :=
  filter (λ state, status state = v) states.

Definition get_states_in_progress := get_states_with_status IN_PROGRESS.

Definition is_finished (states : list ChannelState) : bool :=
  forallb (λ state, bool_decide (status state = COMPLETE)) states.

Definition STATUS_EMOJI (v : ChannelStatus) : string :=
  match v with
  | INCOMPLETE => "⬜"
  | IN_PROGRESS => "🔄"
  | COMPLETE => "✅"
  end.

(** The text of the progress message for the given channel states. *)
Definition build_progress_text (states : list ChannelState) : string :=
  let after_str := strftime_YYYY_MM_DD after_ in
  let before_str := strftime_YYYY_MM_DD before_ in
  let progress_emoji := join " " (map (λ state, STATUS_EMOJI (status state)) states) in
  let states_in_progress := get_states_in_progress states in
  let status_text :=
    match states_in_progress with
    | _ :: _ => "Scanning: " +:+ join " " (map (λ state, mention (channel state))
                                             states_in_progress)
    | [] => if is_finished states then "Done!" else ""
    end in
  (nl +:+ "Scanning message history from " +:+ after_str +:+ " to "
      +:+ before_str +:+ ", across")
  +:+ (" " +:+ str_of_int (Z.of_nat (length help_channels)) +:+ " help channels...")
  +:+ (nl +:+ "> " +:+ progress_emoji)
  +:+ (nl +:+ status_text).

(** [update]: render the current channel states and edit the progress
    message, or send it when there is none yet.  The text sent is
    [build_progress_text] of the entry added to [progress]. *)
Definition update : M unit :=
  modify (λ s,
    {| _progress_message := true; _built_at := _built_at s;
       _channel_states := _channel_states s; _user_table := _user_table s;
       progress := progress s ++ [_channel_states s]; fetched := fetched s;
       observed := observed s |}).

(** [channel_state.channel.history(after=.., before=.., limit=None)] *)
Definition open_history (c : TextChannel) : M History :=
  modify (λ s,
    {| _progress_message := _progress_message s; _built_at := _built_at s;
       _channel_states := _channel_states s; _user_table := _user_table s;
       progress := progress s; fetched := fetched s ++ [c];
       observed := observed s |});;
  ret (history ctx c after_ before_).

(** [user_record = self._user_table[author.id]] followed by
    [user_record[daily_key] += message_length]; the record is the object
    stored in the table, so the table sees the new value. *)
Definition record_message (author : IDType) (daily_key : DailyKey)
  (message_length : Z) (table : UserTable) : UserTable :=
  let '(user_record, table) := Dict.getitem_default [] author table in
  let '(old, user_record) := Dict.getitem_default 0 daily_key user_record in
  let user_record := Dict.set daily_key (old + message_length) user_record in
  Dict.set author user_record table.

Definition update_user_table (f : UserTable → UserTable) : M unit :=
  modify (λ s,
    {| _progress_message := _progress_message s; _built_at := _built_at s;
       _channel_states := _channel_states s; _user_table := f (_user_table s);
       progress := progress s; fetched := fetched s;
       observed := observed s |}).

(** The body of [async for message in history]. *)
Definition scan_message (i : nat) (message : Message) : M unit :=
  match content message with
  | None => ret tt                       (* [continue] *)
  | Some content =>
      let message_length := len content in
      channel_state ← read_state i;
      n ← iadd (total_messages channel_state) 1;
      write_state i (set_total_messages (Some n));;
      channel_state ← read_state i;
      n ← iadd (total_message_length channel_state) message_length;
      write_state i (set_total_message_length (Some n));;
      let daily_key := (year (created_at message), month (created_at message),
                        day (created_at message)) in
      update_user_table (record_message (author_id message) daily_key message_length)
  end.

Fixpoint scan_history (i : nat) (h : History) : M unit :=
  match h with
  | HistoryEnd => ret tt
  | HistoryYield message rest => scan_message i message ;; scan_history i rest
  | HistoryRaise e => raise e
  end.

(** The body of [for channel_state in self._channel_states]. *)
Definition scan_channel (i : nat) : M unit :=
  write_state i (set_status IN_PROGRESS);;
  update;;
  channel_state ← read_state i;
  h ← open_history (channel channel_state);
  write_state i (set_total_messages (Some 0));;
  write_state i (set_total_message_length (Some 0));;
  scan_history i h;;
  write_state i (set_status COMPLETE).

(** [build].  The [typing()] scope around the loop only drives the
    client's typing indicator and is left out. *)
Definition build : M HelpChatReport :=
  reset;;
  update;;
  states ← gets _channel_states;
  for_each scan_channel (seq 0 (length states));;
  update;;
  s ← gets id;
  match _built_at s with
  | Some built_at =>
      ret {| after := after_; before := before_; built_at := built_at;
             channel_states := _channel_states s;
             user_table := _user_table s |}
  | None => raise TypeError
  end.

End Build.

(** ** The sibling context, [HelpChatNomContext]

    It runs the same scan without the user table and batches one line per
    channel.  [nom_summary_batch_length] is read from [HelpChatOptions],
    which is outside the sources at hand, and is a parameter here. *)

Module Nom.

(** [str(x)] of an [Optional[int]] inside an f-string. *)
Definition str_of_optional_int (x : option Z) : string :=
  match x with
  | Some v => str_of_int v
  | None => "None"
  end.

Definition build_summary_lines (states : list ChannelState) : list string :=
  map (λ state,
         mention (channel state) +:+ ": "
           +:+ str_of_optional_int (total_messages state)
           +:+ " (" +:+ str_of_optional_int (total_message_length state) +:+ ")")
      states.

Definition batch_summary_text (nom_summary_batch_length : Z)
  (states : list ChannelState) : list string :=
  batch_lines nom_summary_batch_length (build_summary_lines states).

(** The body of [async for message in history] in [run]. *)
Definition scan_message (i : nat) (message : Message) : M unit :=
  match content message with
  | None => ret tt                       (* [continue] *)
  | Some content =>
      state ← read_state i;
      n ← iadd (total_messages state) 1;
      write_state i (set_total_messages (Some n));;
      state ← read_state i;
      n ← iadd (total_message_length state) (len content);
      write_state i (set_total_message_length (Some n))
  end.

End Nom.

(** ** Reading a run *)

(** The value of the author's entry for a day, [0] when absent. *)
Definition table_entry (table : UserTable) (author : IDType) (daily_key : DailyKey) : Z :=
  default 0 (Dict.get author table ≫= Dict.get daily_key).

(** The status of every channel in a snapshot. *)
Definition statuses (states : list ChannelState) : list ChannelStatus :=
  map status states.

(** A list with its consecutive repetitions dropped. *)
Fixpoint dedup_adjacent {A} `{EqDecision A} (l : list A) : list A :=
  match l with
  | [] => []
  | x :: rest =>
      match rest with
      | y :: _ => if decide (x = y) then dedup_adjacent rest
                  else x :: dedup_adjacent rest
      | [] => [x]
      end
  end.

(** The status of channel [i] in each value of the state list. *)
Definition column (i : nat) (obs : list (list ChannelState)) : list ChannelStatus :=
  omap (λ states, status <$> states !! i) obs.

(** The statuses channel [i] goes through: its status in every observed
    value of the state list, consecutive repetitions dropped. *)
Definition status_sequence (i : nat) (s : BuildContext) : list ChannelStatus :=
  dedup_adjacent (column i (observed s)).

(** A channel state that is [COMPLETE] carries both counters. *)
Definition counters_present (cs : ChannelState) : Prop :=
  status cs = COMPLETE →
  is_Some (total_messages cs) ∧ is_Some (total_message_length cs).

(** A channel whose scan is over: marked, and counted. *)
Definition completed (cs : ChannelState) : Prop :=
  status cs = COMPLETE ∧
  is_Some (total_messages cs) ∧ is_Some (total_message_length cs).

(** A channel the run has not reached: as [reset] made it. *)
Definition untouched (cs : ChannelState) : Prop :=
  status cs = INCOMPLETE ∧
  total_messages cs = None ∧ total_message_length cs = None.

(** The snapshot shown while channel [i] of [n] is being scanned. *)
Definition scanning_snapshot (n i : nat) : list ChannelStatus :=
  replicate i COMPLETE ++ [IN_PROGRESS] ++ replicate (n - S i) INCOMPLETE.

(** Running [build] from a fresh context. *)
Definition run_build (ctx : Context) (help_channels : list HelpChannel)
  (after_ before_ : datetime) : (Exn + HelpChatReport) * BuildContext :=
  build ctx help_channels after_ before_ BuildContext_init.

(** Where an iterator raises, if it does. *)
Fixpoint raises (h : History) : option Exn :=
  match h with
  | HistoryEnd => None
  | HistoryYield _ rest => raises rest
  | HistoryRaise e => Some e
  end.

(** [segment_of xs seg]: [seg] is one or more consecutive items of [xs]. *)
Definition segment_of {A} (xs seg : list A) : Prop :=
  seg ≠ [] ∧ ∃ pre post, xs = pre ++ seg ++ post.

(** ** A sample run

    Two channels scanned over the first two days of 2024: two text messages
    and one message without text in the first channel's history, one text
    message in the second. *)

Module Sample.

Definition midnight (y m d : Z) : datetime :=
  {| year := y; month := m; day := d; hour := 0; minute := 0; second := 0 |}.

Definition channel_a : HelpChannel :=
  {| help_channel_id := 1;
     channel_of := {| text_channel_id := 1; mention := "<#1>" |} |}.

Definition channel_b : HelpChannel :=
  {| help_channel_id := 2;
     channel_of := {| text_channel_id := 2; mention := "<#2>" |} |}.

Definition text_message (author : IDType) (text : string) (d : Z) : Message :=
  {| content := Some text; author_id := author; created_at := midnight 2024 1 d |}.

(** A message whose content is not a string ([None]): the one kind the scan
    loop skips. *)
Definition attachment_only (author : IDType) (d : Z) : Message :=
  {| content := None; author_id := author; created_at := midnight 2024 1 d |}.

(** A message whose content is the empty string, which is what the chat
    library gives for a message that carries only an attachment. *)
Definition empty_text (author : IDType) (d : Z) : Message :=
  {| content := Some ""; author_id := author; created_at := midnight 2024 1 d |}.

Definition history_a : History :=
  HistoryYield (text_message 101 "hello" 1)
    (HistoryYield (attachment_only 102 1)
       (HistoryYield (text_message 101 "0123456789" 1) HistoryEnd)).

Definition history_b : History :=
  HistoryYield (text_message 101 "1234567" 2) HistoryEnd.

(** Both histories are delivered in full. *)
Definition ctx_ok : Context :=
  {| history := λ c _ _, if decide (text_channel_id c = 1) then history_a
                         else history_b;
     utcnow := midnight 2024 1 5 |}.

(** The second channel's history raises after its first message. *)
Definition ctx_failing : Context :=
  {| history := λ c _ _,
       if decide (text_channel_id c = 1) then history_a
       else HistoryYield (text_message 101 "1234567" 2)
              (HistoryRaise (HTTPException 503));
     utcnow := midnight 2024 1 5 |}.

Definition window_after : datetime := midnight 2024 1 1.
Definition window_before : datetime := midnight 2024 1 3.

(** A report with three authors, two of them tied. *)
Definition report : HelpChatReport :=
  {| after := window_after; before := window_before;
     built_at := midnight 2024 1 5;
     channel_states := [];
     user_table := [ (101, [((2024, 1, 1), 15); ((2024, 1, 2), 7)]);
                     (102, [((2024, 1, 1), 30)]);
                     (103, [((2024, 1, 2), 22)]) ] |}.

Definition options : HelpChatSummaryOptions :=
  {| split_length := 2000; max_rows := 10; min_score := 20 |}.

(** A context in the middle of scanning its only channel. *)
Definition scanning_state : ChannelState :=
  {| help_channel := channel_a; channel := channel_of channel_a;
     status := IN_PROGRESS; total_messages := Some 0;
     total_message_length := Some 0 |}.

Definition scanning : BuildContext :=
  {| _progress_message := true; _built_at := Some (midnight 2024 1 5);
     _channel_states := [scanning_state]; _user_table := [];
     progress := []; fetched := [channel_of channel_a];
     observed := [[scanning_state]] |}.

End Sample.

(** ** The loop invariant of [build] *)

Section Invariants.

Variable ctx : Context.
Variable help_channels : list HelpChannel.

Let n := length help_channels.

(** Every channel state belongs to the help channel at its position. *)
Definition states_of_channels (states : list ChannelState) : Prop :=
  Forall2 (λ hc cs, help_channel cs = hc ∧ channel cs = channel_of hc)
          help_channels states.

(** [scan_inv k s]: the loop is about to start on channel [k]; the [k]
    channels before it are done and the others untouched. *)
Record scan_inv (k : nat) (s : BuildContext) : Prop := {
  inv_channels : states_of_channels (_channel_states s);
  inv_done : Forall completed (take k (_channel_states s));
  inv_todo : Forall untouched (drop k (_channel_states s));
  inv_progress :
    map statuses (progress s)
    = replicate n INCOMPLETE :: map (scanning_snapshot n) (seq 0 k);
  inv_fetched : fetched s = map channel_of (take k help_channels);
  inv_last : last (observed s) = Some (_channel_states s);
  inv_counters : Forall (Forall counters_present) (observed s);
  inv_sequences : ∀ j, (j < n)%nat →
    status_sequence j s
    = if decide (j < k)%nat then [INCOMPLETE; IN_PROGRESS; COMPLETE]
      else [INCOMPLETE];
  inv_built_at : _built_at s = Some (utcnow ctx)
}.

(** [aborted_at k s]: the history of channel [k] raised; the channel is
    left in progress, the ones before it are done, the ones after it
    untouched. *)
Record aborted_at (k : nat) (s : BuildContext) : Prop := {
  ab_channels : states_of_channels (_channel_states s);
  ab_done : Forall completed (take k (_channel_states s));
  ab_failing : ∃ cs, _channel_states s !! k = Some cs ∧ status cs = IN_PROGRESS;
  ab_todo : Forall untouched (drop (S k) (_channel_states s));
  ab_progress :
    map statuses (progress s)
    = replicate n INCOMPLETE :: map (scanning_snapshot n) (seq 0 (S k));
  ab_fetched : fetched s = map channel_of (take (S k) help_channels);
  ab_last : last (observed s) = Some (_channel_states s);
  ab_counters : Forall (Forall counters_present) (observed s);
  ab_sequences : ∀ j, (j < n)%nat →
    status_sequence j s
    = if decide (j < k)%nat then [INCOMPLETE; IN_PROGRESS; COMPLETE]
      else if decide (j = k) then [INCOMPLETE; IN_PROGRESS]
      else [INCOMPLETE]
}.

End Invariants.

(** [scanned done todo s s']: from [s] to [s'] the run only wrote to the
    channel state between [done] and [todo], which stays in progress with
    both counters set. *)
Record scanned (done todo : list ChannelState) (s s' : BuildContext) : Prop := {
  sc_states : ∃ cs cs',
    _channel_states s = done ++ cs :: todo ∧
    _channel_states s' = done ++ cs' :: todo ∧
    help_channel cs' = help_channel cs ∧ channel cs' = channel cs ∧
    status cs' = IN_PROGRESS ∧
    is_Some (total_messages cs') ∧ is_Some (total_message_length cs');
  sc_observed : ∃ xs,
    observed s' = observed s ++ map (λ x, done ++ x :: todo) xs ∧
    Forall (λ x, status x = IN_PROGRESS) xs;
  sc_last :
    last (observed s) = Some (_channel_states s) →
    last (observed s') = Some (_channel_states s');
  sc_progress : progress s' = progress s;
  sc_fetched : fetched s' = fetched s;
  sc_built_at : _built_at s' = _built_at s
}.

(** ** What a run is expected to compute

    The totals and the table of a run, written directly from the messages
    the histories deliver; the run itself is compared with them below. *)

(** The messages an iterator yields before it ends or raises. *)
Fixpoint yielded (h : History) : list Message :=
  match h with
  | HistoryEnd => []
  | HistoryYield message rest => message :: yielded rest
  | HistoryRaise _ => []
  end.

(** The daily record key of a message. *)
Definition daily_key_of (message : Message) : DailyKey :=
  (year (created_at message), month (created_at message), day (created_at message)).

(** The lengths of the messages that carry text, in order. *)
Definition text_lengths (messages : list Message) : list Z :=
  omap (λ message, len <$> content message) messages.

(** The table after the loop body has handled each message in turn. *)
Definition record_messages (messages : list Message) (table : UserTable) : UserTable :=
  foldl (λ table message,
           match content message with
           | Some text =>
               record_message (author_id message) (daily_key_of message)
                 (len text) table
           | None => table
           end)
        table messages.

(** The summed text length of an author's messages on one day ... *)
Fixpoint entry_total (author : IDType) (daily_key : DailyKey)
  (messages : list Message) : Z :=
  match messages with
  | [] => 0
  | message :: rest =>
      match content message with
      | Some text =>
          if decide (author_id message = author ∧ daily_key_of message = daily_key)
          then len text + entry_total author daily_key rest
          else entry_total author daily_key rest
      | None => entry_total author daily_key rest
      end
  end.

(** ... and on all days. *)
Fixpoint author_total (author : IDType) (messages : list Message) : Z :=
  match messages with
  | [] => 0
  | message :: rest =>
      match content message with
      | Some text =>
          if decide (author_id message = author)
          then len text + author_total author rest
          else author_total author rest
      | None => author_total author rest
      end
  end.

(** The items of a list in order of first appearance. *)
Definition add_new {A} `{EqDecision A} (seen : list A) (x : A) : list A :=
  if decide (x ∈ seen) then seen else seen ++ [x].

Definition first_seen {A} `{EqDecision A} (xs : list A) : list A :=
  foldl add_new [] xs.

(** The authors of the messages that carry text, one per message. *)
Definition text_authors (messages : list Message) : list IDType :=
  omap (λ message,
          match content message with
          | Some _ => Some (author_id message)
          | None => None
          end)
       messages.

(** The days of an author's messages that carry text, one per message. *)
Definition text_days (author : IDType) (messages : list Message) : list DailyKey :=
  omap (λ message,
          match content message with
          | Some _ => if decide (author_id message = author)
                      then Some (daily_key_of message) else None
          | None => None
          end)
       messages.

(** The score of an author as [get_user_results] computes it, [0] for an
    author without a record. *)
Definition score_of (table : UserTable) (author : IDType) : Z :=
  sum_ints (Dict.values (default [] (Dict.get author table))).

(** The state of a channel whose history was scanned to the end. *)
Definition scanned_state (ctx : Context) (after_ before_ : datetime)
  (hc : HelpChannel) : ChannelState :=
  let lengths := text_lengths (yielded (history ctx (channel_of hc) after_ before_)) in
  {| help_channel := hc; channel := channel_of hc; status := COMPLETE;
     total_messages := Some (Z.of_nat (length lengths));
     total_message_length := Some (sum_ints lengths) |}.

(** The state of a channel as [reset] makes it. *)
Definition fresh_state (hc : HelpChannel) : ChannelState :=
  ChannelState_init hc (channel_of hc).

(** The states rendered while each channel of [todo] is scanned in turn,
    [done] being the states of the channels scanned before. *)
Fixpoint scanning_states (ctx : Context) (after_ before_ : datetime)
  (done : list ChannelState) (todo : list HelpChannel) : list (list ChannelState) :=
  match todo with
  | [] => []
  | hc :: rest =>
      (done ++ set_status IN_PROGRESS (fresh_state hc) :: map fresh_state rest)
        :: scanning_states ctx after_ before_
             (done ++ [scanned_state ctx after_ before_ hc]) rest
  end.

(** All messages of a run, in scan order. *)
Definition run_messages (ctx : Context) (after_ before_ : datetime)
  (help_channels : list HelpChannel) : list Message :=
  concat (map (λ hc, yielded (history ctx (channel_of hc) after_ before_))
              help_channels).

Definition get_states_incomplete := get_states_with_status INCOMPLETE.
Definition get_states_complete := get_states_with_status COMPLETE.

(** The progress text, from the statuses shown and the status line. *)
Definition progress_text_of (help_channels : list HelpChannel)
  (after_ before_ : datetime) (shown : list ChannelStatus) (status_text : string)
  : string :=
  (nl +:+ "Scanning message history from " +:+ strftime_YYYY_MM_DD after_ +:+ " to "
      +:+ strftime_YYYY_MM_DD before_ +:+ ", across")
  +:+ (" " +:+ str_of_int (Z.of_nat (length help_channels)) +:+ " help channels...")
  +:+ (nl +:+ "> " +:+ join " " (map STATUS_EMOJI shown))
  +:+ (nl +:+ status_text).

(** The embed carried by a message of [summarize]. *)
Definition sent_embed (m : Sent) : Embed :=
  match m with
  | Reply _ embed => embed
  | Send _ embed => embed
  end.

(** ** [HelpChatNomContext.run]

    The context keeps, besides what [BuildContext] holds of it (the progress
    message, the channel states and the logs), the list of summary messages
    it has sent: [None] after [reset], the empty list from the moment
    [update] decides to send them, then one more item per message sent. *)

Module NomRun.

(** A summary message handed to [ctx.send]. *)
Record SummaryMessage : Type := {
  summary_content : option string;
  summary_embed : Embed
}.

Record NomContext : Type := {
  base : BuildContext;
  _summary_messages : option (list SummaryMessage)
}.

(** The context as [__init__] leaves it. *)
Definition NomContext_init : NomContext :=
  {| base := BuildContext_init; _summary_messages := Some [] |}.

Definition NM (A : Type) : Type := NomContext → (Exn + A) * NomContext.

Definition nm_ret {A} (a : A) : NM A := λ st, (inr a, st).

Definition nm_bind {A B} (m : NM A) (k : A → NM B) : NM B :=
  λ st, match m st with
        | (inl e, st') => (inl e, st')
        | (inr a, st') => k a st'
        end.

(** A step that only touches what [BuildContext] holds. *)
Definition lift {A} (m : M A) : NM A :=
  λ st, let '(r, b) := m (base st) in
        (r, {| base := b; _summary_messages := _summary_messages st |}).

Definition set_summary_messages (v : option (list SummaryMessage)) : NM unit :=
  λ st, (inr tt, {| base := base st; _summary_messages := v |}).

Fixpoint nm_for_each {A} (body : A → NM unit) (xs : list A) : NM unit :=
  match xs with
  | [] => nm_ret tt
  | x :: rest => nm_bind (body x) (λ _, nm_for_each body rest)
  end.

Section Run.

Variable ctx : Context.
Variable help_channels : list HelpChannel.
Variables after_ before_ : datetime.
(** [self.options.nom_summary_batch_length] and [self.ctx.author.mention] *)
Variable nom_summary_batch_length : Z.
Variable author_mention : string.

(** [reset], as far as [BuildContext] holds it. *)
Definition reset_base : M unit :=
  modify (λ s,
    let states :=
      map (λ help_channel, ChannelState_init help_channel (channel_of help_channel))
          help_channels in
    {| _progress_message := false; _built_at := _built_at s;
       _channel_states := states; _user_table := _user_table s;
       progress := progress s; fetched := fetched s;
       observed := [states] |}).

Definition reset : NM unit :=
  nm_bind (lift reset_base) (λ _, set_summary_messages None).

Definition make_summary_batch_embed (batch_no count_batches : Z) (text : string)
  : Embed :=
  {| embed_type := "rich"; title := None; description := text; colour := None;
     footer := if 1 <? count_batches
               then Some (str_of_int batch_no +:+ " of " +:+ str_of_int count_batches)
               else None |}.

(** The messages of [send_summary_messages] for the given batches, or the
    [IndexError] of [batches[0]]. *)
Definition summary_messages (batches : list string) : Exn + list SummaryMessage :=
  let count_batches := Z.of_nat (length batches) in
  match batches with
  | [] => inl IndexError
  | first_batch :: rest =>
      inr ({| summary_content :=
                Some (nl +:+ author_mention +:+ " Here are the results:");
              summary_embed := make_summary_batch_embed 1 count_batches first_batch |}
           :: imap (λ i batch,
                      {| summary_content := None;
                         summary_embed :=
                           make_summary_batch_embed (Z.of_nat i + 2) count_batches
                             batch |})
                   rest)
  end.

(** [async for message in self.send_summary_messages(): append]; called with
    [self._summary_messages] just set to the empty list. *)
Definition send_summary_messages : NM unit :=
  λ st,
    let batches :=
      Nom.batch_summary_text nom_summary_batch_length (_channel_states (base st)) in
    match summary_messages batches with
    | inl e => (inl e, st)
    | inr messages =>
        (inr tt,
         {| base := base st;
            _summary_messages :=
              Some (default [] (_summary_messages st) ++ messages) |})
    end.

Definition update : NM unit :=
  nm_bind (lift update) (λ _,        (* the progress message, as in [build] *)
    λ st,
      if is_finished (_channel_states (base st))
         && bool_decide (_summary_messages st = None)
      then nm_bind (set_summary_messages (Some [])) (λ _, send_summary_messages) st
      else (inr tt, st)).

Fixpoint scan_history (i : nat) (h : History) : M unit :=
  match h with
  | HistoryEnd => ret tt
  | HistoryYield message rest => Nom.scan_message i message ;; scan_history i rest
  | HistoryRaise e => raise e
  end.

(** The loop body after its [update]. *)
Definition scan_body (i : nat) : M unit :=
  state ← read_state i;
  h ← open_history ctx after_ before_ (channel state);
  write_state i (set_total_messages (Some 0));;
  write_state i (set_total_message_length (Some 0));;
  scan_history i h;;
  write_state i (set_status COMPLETE).

(** The body of [for state in self._channel_states]. *)
Definition scan_channel (i : nat) : NM unit :=
  nm_bind (lift (write_state i (set_status IN_PROGRESS))) (λ _,
  nm_bind update (λ _,
  lift (scan_body i))).

(** [run].  The [typing()] scope is left out, as in [build]. *)
Definition run : NM unit :=
  nm_bind reset (λ _,
  nm_bind update (λ _,
  nm_bind (λ st, nm_for_each scan_channel
                   (seq 0 (length (_channel_states (base st)))) st) (λ _,
  update))).

End Run.

End NomRun.

(** ** The pack command, [pack/pack_cog.py]

    The part of [cmd_pack] that works on the text of the command message:
    the source handed to [generate_packs] is
    [message.content.split("\n", 1)[-1]]. *)

Module Pack.

(** The rest of [s] behind its first newline, if it has one. *)
Fixpoint after_first_newline (s : string) : option string :=
  match s with
  | EmptyString => None
  | String c rest =>
      if Ascii.eqb c "010" then Some rest else after_first_newline rest
  end.

(** [s.split("\n", 1)[-1]] *)
Definition split_last (s : string) : string :=
  default s (after_first_newline s).

Fixpoint has_newline (s : string) : bool :=
  match s with
  | EmptyString => false
  | String c rest => Ascii.eqb c "010" || has_newline rest
  end.

End Pack.

(* ================================================================== *)
(** * Properties *)
(* ================================================================== *)

(** ** Strings *)

Section StringFacts.

Lemma app_nil_l (s : string) : "" +:+ s = s.
Proof. reflexivity. Qed.

Lemma app_cons (a : ascii) (s t : string) :
  String a s +:+ t = String a (s +:+ t).
Proof. reflexivity. Qed.

Lemma app_assoc (s t u : string) : (s +:+ t) +:+ u = s +:+ (t +:+ u).
Proof.
  induction s as [|a s IH]; [reflexivity|].
  rewrite !app_cons. by rewrite IH.
Qed.

Lemma len_app (s t : string) : len (s +:+ t) = len s + len t.
Proof.
  unfold len. induction s as [|a s IH]; [rewrite app_nil_l; simpl; lia|].
  rewrite app_cons. simpl String.length. lia.
Qed.

Lemma len_nonneg (s : string) : 0 ≤ len s.
Proof. unfold len. lia. Qed.

Lemma len_nl : len nl = 1.
Proof. reflexivity. Qed.

Lemma truthy_true (s : string) : truthy s = true ↔ s ≠ "".
Proof. destruct s; simpl; split; congruence. Qed.

Lemma truthy_len (s : string) : 0 < len s → truthy s = true.
Proof. destruct s; [unfold len; simpl; lia|reflexivity]. Qed.

Lemma app_nl_nonempty (s t : string) : s +:+ nl +:+ t ≠ "".
Proof.
  intros H. apply (f_equal len) in H.
  rewrite !len_app, len_nl in H.
  pose proof (len_nonneg s). pose proof (len_nonneg t).
  unfold len in H at 3. simpl in H. lia.
Qed.

Lemma join_cons (sep p : string) (rest : list string) :
  rest ≠ [] → join sep (p :: rest) = p +:+ sep +:+ join sep rest.
Proof. by destruct rest. Qed.

Lemma join_snoc (sep : string) (parts : list string) (p : string) :
  parts ≠ [] → join sep (parts ++ [p]) = join sep parts +:+ sep +:+ p.
Proof.
  induction parts as [|q parts IH]; [done|]. intros _.
  destruct parts as [|q' parts]; [reflexivity|].
  change ((q :: q' :: parts) ++ [p]) with (q :: ((q' :: parts) ++ [p])).
  rewrite join_cons by (by destruct parts).
  rewrite IH by done.
  rewrite (join_cons _ q (q' :: parts)) by done.
  by rewrite !app_assoc.
Qed.

End StringFacts.

(** ** The line batcher *)

Section Batcher.

Variable split_length : Z.

(** A non-empty accumulator is always flushed in the end. *)
Lemma batch_loop_nonempty_acc (batch : string) (lines : list string) :
  batch ≠ "" → batch_loop split_length batch lines ≠ [].
Proof.
  revert batch. induction lines as [|line rest IH]; intros batch Hb; simpl.
  - apply truthy_true in Hb. by rewrite Hb.
  - case_match; [|done]. apply IH, app_nl_nonempty.
Qed.

(** At least one batch comes out of at least one line. *)
Lemma batch_loop_nonempty_lines (batch : string) (lines : list string) :
  lines ≠ [] → batch_loop split_length batch lines ≠ [].
Proof.
  destruct lines as [|line rest]; [done|]. intros _. simpl.
  case_match; [|done]. apply batch_loop_nonempty_acc, app_nl_nonempty.
Qed.

Lemma batch_loop_nil (batch : string) (lines : list string) :
  batch_loop split_length batch lines = [] → batch = "" ∧ lines = [].
Proof.
  intros H. destruct lines as [|line rest].
  - split; [|done]. destruct batch; [done|]. simpl in H. done.
  - by apply batch_loop_nonempty_lines in H.
Qed.

(** Joining the batches gives back the accumulator and the lines, joined,
    unless the run ends on an empty accumulator that was never flushed. *)
Lemma batch_loop_join (batch : string) (lines : list string) :
  last (batch :: lines) ≠ Some "" →
  join nl (batch_loop split_length batch lines) = join nl (batch :: lines).
Proof.
  revert batch. induction lines as [|line rest IH]; intros batch Hlast.
  - simpl in *. destruct batch; [done|reflexivity].
  - simpl batch_loop. case_match eqn:Hfit.
    + rewrite IH.
      * destruct rest; [reflexivity|].
        rewrite !join_cons by done. by rewrite !app_assoc.
      * destruct rest as [|l2 rest]; [|done].
        simpl. intros [=Hempty]. by apply app_nl_nonempty in Hempty.
    + rewrite join_cons.
      * rewrite IH by (by destruct rest).
        by rewrite (join_cons _ batch) by done.
      * intros Hnil. apply batch_loop_nil in Hnil as [-> ->]. by apply Hlast.
Qed.

(** No batch is longer than the limit when no line and not the
    accumulator is. *)
Lemma batch_loop_bounded (batch : string) (lines : list string) :
  len batch ≤ split_length →
  Forall (λ line, len line ≤ split_length) lines →
  Forall (λ b, len b ≤ split_length) (batch_loop split_length batch lines).
Proof.
  revert batch. induction lines as [|line rest IH]; intros batch Hb Hl; simpl.
  - case_match; by repeat constructor.
  - inversion_clear Hl. case_match eqn:Hfit.
    + apply IH; [lia|done].
    + constructor; [done|]. by apply IH.
Qed.

(** A line longer than the limit is flushed alone. *)
Lemma batch_loop_oversized (batch : string) (pre post : list string) (line : string) :
  0 ≤ split_length → split_length < len line →
  line ∈ batch_loop split_length batch (pre ++ line :: post).
Proof.
  intros Hpos Hlong. revert batch.
  induction pre as [|p pre IH]; intros batch; simpl.
  - pose proof (len_nonneg batch).
    case_match eqn:Hfit.
    { rewrite !len_app, len_nl in Hfit. lia. }
    apply list_elem_of_further. destruct post as [|l2 post]; simpl.
    + rewrite truthy_len by lia. apply list_elem_of_here.
    + pose proof (len_nonneg l2). case_match eqn:Hfit2.
      { rewrite !len_app, len_nl in Hfit2. lia. }
      apply list_elem_of_here.
  - case_match; [apply IH|apply list_elem_of_further, IH].
Qed.

(** Every batch joins consecutive items of the accumulated lines followed
    by the lines still to come. *)
Lemma batch_loop_segments (seg lines : list string) :
  seg ≠ [] →
  Forall (λ b, ∃ s, segment_of (seg ++ lines) s ∧ b = join nl s)
         (batch_loop split_length (join nl seg) lines).
Proof.
  revert seg. induction lines as [|line rest IH]; intros seg Hseg; simpl.
  - case_match; constructor; [|done].
    exists seg. split; [|done]. split; [done|]. by exists [], [].
  - assert (Hrest : Forall (λ b, ∃ s, segment_of (seg ++ line :: rest) s ∧ b = join nl s)
                      (batch_loop split_length (join nl [line]) rest)).
    { eapply Forall_impl; [apply (IH [line]); done|].
      intros b (s & (Hs & pre & post & Heq) & ->). exists s.
      split; [|done]. split; [done|]. exists (seg ++ pre), post.
      rewrite <- (assoc_L (++)). by rewrite <- Heq. }
    case_match.
    + rewrite <- join_snoc by done.
      eapply Forall_impl; [apply (IH (seg ++ [line])); by destruct seg|].
      intros b (s & Hs & ->). exists s. split; [|done].
      by rewrite <- (assoc_L (++)) in Hs.
    + constructor; [|exact Hrest].
      exists seg. split; [|done]. split; [done|]. by exists [], (line :: rest).
Qed.

End Batcher.

(** The batches of a line sequence whose last line is not empty, joined
    with newlines, are a newline followed by the joined lines: the empty
    initial accumulator takes part in the join like a line. *)
Lemma batch_lines_join (split_length : Z) (lines : list string) :
  lines ≠ [] → last lines ≠ Some "" →
  join nl (batch_lines split_length lines) = nl +:+ join nl lines.
Proof.
  intros Hne Hlast. unfold batch_lines.
  rewrite batch_loop_join by (by destruct lines).
  by rewrite join_cons.
Qed.

Lemma batch_lines_bounded (split_length : Z) (lines : list string) :
  0 ≤ split_length →
  Forall (λ line, len line ≤ split_length) lines →
  Forall (λ b, len b ≤ split_length) (batch_lines split_length lines).
Proof. intros. by apply batch_loop_bounded. Qed.

Lemma batch_lines_oversized (split_length : Z) (pre post : list string) (line : string) :
  0 ≤ split_length → split_length < len line →
  line ∈ batch_lines split_length (pre ++ line :: post).
Proof. apply batch_loop_oversized. Qed.

Lemma batch_lines_segments (split_length : Z) (lines : list string) :
  Forall (λ b, ∃ s, segment_of ("" :: lines) s ∧ b = join nl s)
         (batch_lines split_length lines).
Proof. apply (batch_loop_segments split_length [""] lines). done. Qed.

(** C1, evaluated.  On the one-line input [["a"]] with limit 5 the only
    batch is a newline followed by the line, so the joined batches differ
    from the joined lines.  The same happens to the sample report with
    limit 2000: every line fits, and the single batch is a newline followed
    by the joined summary lines. *)
Theorem batch_lines_roundtrip_leading_newline :
  Forall (λ line, len line ≤ 5) ["a"] ∧
  batch_lines 5 ["a"] = [nl +:+ "a"] ∧
  join nl (batch_lines 5 ["a"]) ≠ join nl ["a"] ∧
  let lines := build_summary_lines Sample.report Sample.options in
  Forall (λ line, len line ≤ split_length Sample.options) lines ∧
  batch_summary_text Sample.report Sample.options = [nl +:+ join nl lines] ∧
  join nl (batch_summary_text Sample.report Sample.options) ≠ join nl lines.
Proof.
  split; [by repeat constructor|]. split; [reflexivity|]. split; [by vm_compute|].
  split; [|split]; [|by vm_compute|by vm_compute].
  vm_compute. repeat constructor; discriminate.
Qed.

(** C3, evaluated.  On the one-line input [["abc"]] with limit 3 the line
    does not fit behind the empty accumulator, which is flushed as an empty
    first batch; the empty batch joins no run of input lines.  With limit 5
    the only batch of [["a"]] starts with a newline and joins no run either.
    The sample report with limit 100 gets an empty first batch as well. *)
Theorem batch_lines_first_batch_not_a_join :
  batch_lines 3 ["abc"] = [""; "abc"] ∧
  (¬ ∃ s, segment_of ["abc"] s ∧ "" = join nl s) ∧
  batch_lines 5 ["a"] = [nl +:+ "a"] ∧
  (¬ ∃ s, segment_of ["a"] s ∧ nl +:+ "a" = join nl s) ∧
  head (batch_summary_text Sample.report
          {| split_length := 100; max_rows := 10; min_score := 20 |})
  = Some "".
Proof.
  split; [reflexivity|]. split; [|split; [reflexivity|split]].
  - intros (s & (Hs & pre & post & Heq) & Hj).
    destruct pre as [|p pre]; simplify_eq/=.
    + destruct s as [|x s]; [done|]. simplify_eq/=.
      destruct s; simplify_eq/=.
    + destruct pre; simplify_eq/=. destruct s; simplify_eq/=.
  - intros (s & (Hs & pre & post & Heq) & Hj).
    destruct pre as [|p pre]; simplify_eq/=.
    + destruct s as [|x s]; [done|]. simplify_eq/=.
      destruct s; simplify_eq/=.
    + destruct pre; simplify_eq/=. destruct s; simplify_eq/=.
  - by vm_compute.
Qed.

(** ** The leaderboard *)

Section Sorting.

Context {A : Type} (key : A → Z).

Let le_key (a b : A) : Prop := key a ≤ key b.

Lemma insert_by_key_perm (x : A) (l : list A) :
  insert_by_key key x l ≡ₚ x :: l.
Proof.
  induction l as [|y l IH]; simpl; [done|].
  case_match; [done|]. rewrite IH. apply Permutation_swap.
Qed.

Lemma sorted_perm (l : list A) : sorted key l ≡ₚ l.
Proof.
  induction l as [|x l IH]; simpl; [done|].
  by rewrite insert_by_key_perm, IH.
Qed.

Lemma length_sorted (l : list A) : length (sorted key l) = length l.
Proof. by rewrite sorted_perm. Qed.

Lemma insert_by_key_sorted (x : A) (l : list A) :
  StronglySorted le_key l → StronglySorted le_key (insert_by_key key x l).
Proof.
  induction 1 as [|y l Hl IH Hy]; simpl.
  - by repeat constructor.
  - case_match eqn:Hle.
    + apply Z.leb_le in Hle. constructor; [by constructor|].
      constructor; [done|].
      eapply Forall_impl; [exact Hy|]. unfold le_key. intros; simpl in *; lia.
    + apply Z.leb_gt in Hle. constructor; [done|].
      rewrite insert_by_key_perm. constructor; [unfold le_key; lia|done].
Qed.

Lemma sorted_sorted (l : list A) : StronglySorted le_key (sorted key l).
Proof.
  induction l as [|x l IH]; simpl; [constructor|].
  by apply insert_by_key_sorted.
Qed.

(** Stability: elements with one key keep their input order. *)
Lemma insert_by_key_stable (k : Z) (x : A) (l : list A) :
  filter (λ a, key a = k) (insert_by_key key x l)
  = filter (λ a, key a = k) (x :: l).
Proof.
  induction l as [|y l IH]; simpl; [done|].
  case_match eqn:Hle; [done|]. apply Z.leb_gt in Hle.
  rewrite (filter_cons _ y), IH, !(filter_cons _ x), !(filter_cons _ y).
  repeat case_decide; try done; lia.
Qed.

Lemma sorted_stable (k : Z) (l : list A) :
  filter (λ a, key a = k) (sorted key l) = filter (λ a, key a = k) l.
Proof.
  induction l as [|x l IH]; simpl; [done|].
  rewrite insert_by_key_stable, !(filter_cons _ x), IH. done.
Qed.

End Sorting.

Section Ranking.

Variable options : HelpChatSummaryOptions.

Lemma rows_loop_prefix (i : Z) (rows : list Row) :
  rows_loop options i rows `prefix_of` rows.
Proof.
  revert i. induction rows as [|[[user_id score] days_active] rows IH];
    intros i; simpl; [done|].
  case_match; [apply prefix_nil|]. by apply prefix_cons.
Qed.

Lemma rows_loop_length (i : Z) (rows : list Row) :
  Z.of_nat (length (rows_loop options i rows)) ≤ Z.max 0 (max_rows options - i).
Proof.
  revert i. induction rows as [|[[user_id score] days_active] rows IH];
    intros i; simpl; [lia|].
  case_match eqn:Hstop; simpl; [lia|].
  apply orb_false_iff in Hstop as [Hi _].
  specialize (IH (i + 1)). lia.
Qed.

Lemma rows_loop_min_score (i : Z) (rows : list Row) :
  Forall (λ row, min_score options ≤ row_score row) (rows_loop options i rows).
Proof.
  revert i. induction rows as [|[[user_id score] days_active] rows IH];
    intros i; simpl; [done|].
  case_match eqn:Hstop; [done|].
  apply orb_false_iff in Hstop as [_ Hs]. apply Z.ltb_ge in Hs.
  constructor; [done|]. apply IH.
Qed.

End Ranking.

Lemma prefix_StronglySorted {A} (R : relation A) (l1 l2 : list A) :
  l1 `prefix_of` l2 → StronglySorted R l2 → StronglySorted R l1.
Proof. intros [k ->] H. by apply StronglySorted_app_1_l in H. Qed.

Lemma prefix_filter {A} (P : A → Prop) `{∀ x, Decision (P x)} (l1 l2 : list A) :
  l1 `prefix_of` l2 → filter P l1 `prefix_of` filter P l2.
Proof. intros [k ->]. rewrite filter_app. by apply prefix_app_r. Qed.

Lemma StronglySorted_mono {A} (R1 R2 : relation A) (l : list A) :
  (∀ a b, R1 a b → R2 a b) → StronglySorted R1 l → StronglySorted R2 l.
Proof.
  intros HR. induction 1 as [|x l Hl IH Hx]; constructor; [done|].
  eapply Forall_impl; [exact Hx|]. intros; by apply HR.
Qed.

Lemma sorted_user_results_sorted (self : HelpChatReport) :
  StronglySorted (λ r1 r2, row_score r2 ≤ row_score r1) (sorted_user_results self).
Proof.
  unfold sorted_user_results.
  eapply StronglySorted_mono;
    [|apply (sorted_sorted (λ row, - row_score row))].
  intros r1 r2. simpl. lia.
Qed.

(** C6: the rows printed after the header come in non-increasing score
    order, are at most [max_rows] many, all reach [min_score], and rows of
    equal score keep the iteration order of the user table. *)
Theorem ranked_rows_ordered (self : HelpChatReport) (options : HelpChatSummaryOptions) :
  0 ≤ max_rows options →
  let rows := ranked_rows self options in
  build_summary_lines self options
    = summary_header self options (Z.of_nat (length (user_table self)))
        :: map row_line rows ∧
  StronglySorted (λ r1 r2, row_score r2 ≤ row_score r1) rows ∧
  Z.of_nat (length rows) ≤ max_rows options ∧
  Forall (λ row, min_score options ≤ row_score row) rows ∧
  ∀ score, filter (λ row, row_score row = score) rows
           `prefix_of` filter (λ row, row_score row = score) (get_user_results self).
Proof.
  intros Hmax rows. subst rows. unfold ranked_rows. repeat split.
  - unfold build_summary_lines, ranked_rows, sorted_user_results.
    by rewrite length_sorted; unfold get_user_results; rewrite length_map.
  - eapply prefix_StronglySorted; [apply rows_loop_prefix|].
    apply sorted_user_results_sorted.
  - pose proof (rows_loop_length options 0 (sorted_user_results self)). lia.
  - apply rows_loop_min_score.
  - intros score.
    etrans; [apply prefix_filter, rows_loop_prefix|].
    unfold sorted_user_results.
    rewrite (list_filter_iff _ (λ row : Row, - row_score row = - score))
      by (intros; lia).
    rewrite (sorted_stable (λ row : Row, - row_score row)).
    by rewrite (list_filter_iff _ (λ row : Row, row_score row = score))
      by (intros; lia).
Qed.

(** The sample leaderboard: the two authors tied at 22 keep table order. *)
Lemma ranked_rows_ordered_witness :
  let rows := ranked_rows Sample.report Sample.options in
  rows = [(102, 30, 1); (101, 22, 2); (103, 22, 1)] ∧
  StronglySorted (λ r1 r2, row_score r2 ≤ row_score r1) rows ∧
  Z.of_nat (length rows) ≤ 10.
Proof.
  intros rows. split; [reflexivity|].
  assert (H : 0 ≤ max_rows Sample.options) by (simpl; lia).
  destruct (ranked_rows_ordered Sample.report Sample.options H)
    as (_ & Hsorted & Hlen & _).
  split; [exact Hsorted|exact Hlen].
Defined.

(** Whatever the options, [summarize] finds a first batch and sends it. *)
Lemma summarize_sends (self : HelpChatReport) (split_length max_rows min_score : Z) :
  let options := {| split_length := split_length; max_rows := max_rows;
                    min_score := min_score |} in
  ∃ first_batch rest sent,
    batch_summary_text self options = first_batch :: rest ∧
    summarize self split_length max_rows min_score
    = inr (Reply "The results are in:"
             (make_summary_batch_embed self 1
                (Z.of_nat (length (first_batch :: rest))) first_batch) :: sent).
Proof.
  intros options. unfold summarize. simpl.
  fold options.
  destruct (batch_summary_text self options) as [|first_batch rest] eqn:Hb.
  - exfalso. revert Hb. unfold batch_summary_text.
    by apply batch_loop_nonempty_lines.
  - by eexists _, _, _.
Qed.

(** C10: the header is the first line whatever the rows, so there is a first
    batch, and [summarize] never raises [IndexError] on [batches[0]]. *)
Theorem summarize_first_batch_exists (self : HelpChatReport)
  (split_length max_rows min_score : Z) :
  let options := {| split_length := split_length; max_rows := max_rows;
                    min_score := min_score |} in
  head (build_summary_lines self options)
    = Some (summary_header self options
              (Z.of_nat (length (sorted_user_results self)))) ∧
  batch_summary_text self options ≠ [] ∧
  summarize self split_length max_rows min_score ≠ inl IndexError ∧
  ∃ first_batch rest sent,
    batch_summary_text self options = first_batch :: rest ∧
    summarize self split_length max_rows min_score
    = inr (Reply "The results are in:"
             (make_summary_batch_embed self 1
                (Z.of_nat (length (first_batch :: rest))) first_batch) :: sent).
Proof.
  intros options.
  destruct (summarize_sends self split_length max_rows min_score)
    as (first_batch & rest & sent & Hb & Hs).
  fold options in Hb. repeat split.
  - by rewrite Hb.
  - by rewrite Hs.
  - by eexists _, _, _.
Qed.

(** C5, refuted on [split_length = 0]: the options are built, and
    [summarize] goes on to batch and send. *)
Lemma HelpChatSummaryOptions_init_accepts_zero :
  HelpChatSummaryOptions_init 0 10 0
    = inr {| split_length := 0; max_rows := 10; min_score := 0 |} ∧
  (¬ ∃ e, HelpChatSummaryOptions_init 0 10 0 = inl e) ∧
  ∃ sent, summarize Sample.report 0 10 0 = inr sent ∧ length sent = 5%nat.
Proof.
  split; [reflexivity|]. split.
  - by intros [e He].
  - eexists. split; [vm_compute; reflexivity|reflexivity].
Qed.

(** C5, amended: building the options never fails; every [split_length],
    positive or not, is stored as given, and [summarize] sends its first
    batch with it. *)
Theorem HelpChatSummaryOptions_init_total (self : HelpChatReport)
  (split_length max_rows min_score : Z) :
  HelpChatSummaryOptions_init split_length max_rows min_score
    = inr {| split_length := split_length; max_rows := max_rows;
             min_score := min_score |} ∧
  ∃ first rest, summarize self split_length max_rows min_score = inr (first :: rest).
Proof.
  split; [reflexivity|].
  destruct (summarize_sends self split_length max_rows min_score)
    as (first_batch & rest & sent & _ & Hs).
  by eexists _, _.
Qed.

(** ** Dictionaries *)

Section DictFacts.

Context {K V : Type} `{EqDecision K}.
Implicit Types (d : list (K * V)) (k : K) (v : V).

Lemma get_set_eq d k v : Dict.get k (Dict.set k v d) = Some v.
Proof.
  induction d as [|[k' v'] d IH]; simpl.
  - by rewrite decide_True.
  - destruct (decide (k' = k)) as [->|Hne]; simpl.
    + by rewrite decide_True.
    + by rewrite decide_False.
Qed.

Lemma get_set_ne d k k' v : k ≠ k' → Dict.get k' (Dict.set k v d) = Dict.get k' d.
Proof.
  intros Hne. induction d as [|[k0 v0] d IH]; simpl.
  - by rewrite decide_False.
  - destruct (decide (k0 = k)) as [->|Hne0]; simpl.
    + by rewrite !decide_False.
    + destruct (decide (k0 = k')); [done|apply IH].
Qed.

Lemma getitem_default_value v0 k d :
  (Dict.getitem_default v0 k d).1 = default v0 (Dict.get k d).
Proof. unfold Dict.getitem_default. by destruct (Dict.get k d). Qed.

Lemma getitem_default_get v0 k k' d :
  k ≠ k' →
  Dict.get k' (Dict.getitem_default v0 k d).2 = Dict.get k' d.
Proof.
  intros Hne. unfold Dict.getitem_default.
  destruct (Dict.get k d); simpl; [done|by apply get_set_ne].
Qed.

End DictFacts.

(** [record_message] adds the length to the author's entry for the day. *)
Lemma record_message_entry (author : IDType) (daily_key : DailyKey)
  (message_length : Z) (table : UserTable) :
  table_entry (record_message author daily_key message_length table) author daily_key
  = table_entry table author daily_key + message_length.
Proof.
  unfold record_message, table_entry.
  destruct (Dict.getitem_default [] author table) as [user_record table1] eqn:Ht.
  destruct (Dict.getitem_default 0 daily_key user_record) as [old user_record1] eqn:Hr.
  rewrite get_set_eq. simpl. rewrite get_set_eq. simpl.
  pose proof (getitem_default_value [] author table) as Hv1.
  pose proof (getitem_default_value 0 daily_key user_record) as Hv2.
  rewrite Ht in Hv1. rewrite Hr in Hv2. simpl in *. subst.
  clear Ht Hr. unfold UserTable, UserRecord, IDType in *.
  destruct (Dict.get author table); reflexivity.
Qed.

(** ... and leaves every other entry as it was. *)
Lemma record_message_other (author author' : IDType) (daily_key daily_key' : DailyKey)
  (message_length : Z) (table : UserTable) :
  (author', daily_key') ≠ (author, daily_key) →
  table_entry (record_message author daily_key message_length table) author' daily_key'
  = table_entry table author' daily_key'.
Proof.
  intros Hne. unfold record_message, table_entry.
  destruct (Dict.getitem_default [] author table) as [user_record table1] eqn:Ht.
  destruct (Dict.getitem_default 0 daily_key user_record) as [old user_record1] eqn:Hr.
  destruct (decide (author = author')) as [<-|Ha].
  - rewrite get_set_eq. simpl.
    assert (daily_key ≠ daily_key') as Hk by congruence.
    rewrite get_set_ne by done.
    pose proof (getitem_default_get 0 daily_key daily_key' user_record Hk) as Hg.
    rewrite Hr in Hg. simpl in Hg. rewrite Hg.
    pose proof (getitem_default_value [] author table) as Hv1.
    rewrite Ht in Hv1. simpl in Hv1. subst.
    clear Ht Hr Hg. unfold UserTable, UserRecord, IDType in *.
    destruct (Dict.get author table); reflexivity.
  - rewrite get_set_ne by done.
    pose proof (getitem_default_get [] author author' table Ha) as Hg.
    rewrite Ht in Hg. simpl in Hg.
    unfold UserTable, UserRecord, IDType in *. by rewrite Hg.
Qed.

(** ** Status columns *)

Section Columns.

Context {A : Type} `{EqDecision A}.
Implicit Types (l : list A) (x : A).

Lemma dedup_adjacent_cons_cons x y l :
  dedup_adjacent (x :: y :: l)
  = if decide (x = y) then dedup_adjacent (y :: l)
    else x :: dedup_adjacent (y :: l).
Proof. reflexivity. Qed.

Lemma dedup_adjacent_snoc l x :
  dedup_adjacent (l ++ [x])
  = if decide (last l = Some x) then dedup_adjacent l
    else dedup_adjacent l ++ [x].
Proof.
  induction l as [|a l IH]; [by rewrite decide_False|].
  destruct l as [|b l].
  - change (dedup_adjacent ([a] ++ [x])) with (dedup_adjacent [a; x]).
    rewrite dedup_adjacent_cons_cons. simpl.
    destruct (decide (a = x)) as [->|Hne].
    + by rewrite decide_True.
    + rewrite decide_False; [done|congruence].
  - change ((a :: b :: l) ++ [x]) with (a :: b :: (l ++ [x])).
    rewrite !dedup_adjacent_cons_cons.
    change (b :: (l ++ [x])) with ((b :: l) ++ [x]). rewrite IH.
    rewrite last_cons_cons.
    destruct (decide (a = b)), (decide (last (b :: l) = Some x)); done.
Qed.

Lemma last_dedup_adjacent l : last (dedup_adjacent l) = last l.
Proof.
  induction l as [|a l IH]; [done|].
  destruct l as [|b l]; [done|].
  rewrite dedup_adjacent_cons_cons, last_cons_cons.
  destruct (decide (a = b)); [done|].
  rewrite last_cons, IH.
  destruct (last (b :: l)) eqn:Hl; [done|]. by apply last_None in Hl.
Qed.

Lemma dedup_adjacent_replicate l x m :
  last l = Some x → dedup_adjacent (l ++ replicate m x) = dedup_adjacent l.
Proof.
  intros Hl. induction m as [|m IH]; [by rewrite app_nil_r|].
  rewrite replicate_S_end, (assoc_L (++)), dedup_adjacent_snoc.
  rewrite decide_True; [done|].
  destruct m; [by rewrite app_nil_r|].
  by rewrite replicate_S_end, (assoc_L (++)), last_snoc.
Qed.

End Columns.

Lemma column_app (j : nat) (obs1 obs2 : list (list ChannelState)) :
  column j (obs1 ++ obs2) = column j obs1 ++ column j obs2.
Proof. apply omap_app. Qed.

(** Writes next to position [j] repeat the status of channel [j]. *)
Lemma column_constant (j : nat) (c : ChannelStatus) (obs : list (list ChannelState)) :
  Forall (λ states, status <$> states !! j = Some c) obs →
  column j obs = replicate (length obs) c.
Proof.
  induction 1 as [|states obs Hs _ IH]; [done|].
  change (column j (states :: obs))
    with (from_option (λ c', c' :: column j obs) (column j obs)
            (status <$> states !! j)).
  rewrite Hs. simpl. by rewrite IH.
Qed.

Lemma column_last (j : nat) (obs : list (list ChannelState))
  (states : list ChannelState) (cs : ChannelState) :
  last obs = Some states → states !! j = Some cs →
  last (column j obs) = Some (status cs).
Proof.
  intros [obs' ->]%last_Some Hj.
  rewrite column_app. unfold column at 2. simpl. rewrite Hj. simpl.
  apply last_snoc.
Qed.

(** ** Running the monad *)

Section RunFacts.

Lemma run_bind {A B} (m : M A) (k : A → M B) (s : BuildContext) :
  (m ≫= k) s
  = match m s with
    | (inl e, s') => (inl e, s')
    | (inr a, s') => k a s'
    end.
Proof. reflexivity. Qed.

Lemma read_state_run (i : nat) (s : BuildContext) (cs : ChannelState) :
  _channel_states s !! i = Some cs → read_state i s = (inr cs, s).
Proof.
  intros Hi. unfold read_state. rewrite run_bind. unfold gets. by rewrite Hi.
Qed.

Lemma alter_middle {A} (f : A → A) (l1 l2 : list A) (x : A) :
  alter f (length l1) (l1 ++ x :: l2) = l1 ++ f x :: l2.
Proof. rewrite alter_app_r_alt by lia. by rewrite Nat.sub_diag. Qed.

Lemma lookup_middle {A} (l1 l2 : list A) (x : A) :
  (l1 ++ x :: l2) !! length l1 = Some x.
Proof. by apply list_lookup_middle. Qed.

(** One text message, step by step. *)
Lemma scan_message_text (done todo : list ChannelState) (cs : ChannelState)
  (s : BuildContext) (message : Message) (text : string) (m l : Z) :
  _channel_states s = done ++ cs :: todo →
  content message = Some text →
  total_messages cs = Some m →
  total_message_length cs = Some l →
  let cs1 := set_total_messages (Some (m + 1)) cs in
  let cs2 := set_total_message_length (Some (l + len text)) cs1 in
  scan_message (length done) message s
  = (inr tt,
     {| _progress_message := _progress_message s; _built_at := _built_at s;
        _channel_states := done ++ cs2 :: todo;
        _user_table :=
          record_message (author_id message)
            (year (created_at message), month (created_at message),
             day (created_at message))
            (len text) (_user_table s);
        progress := progress s; fetched := fetched s;
        observed := (observed s ++ [done ++ cs1 :: todo])
                      ++ [done ++ cs2 :: todo] |}).
Proof.
  intros Hst Hc Hm Hl cs1 cs2. unfold scan_message. rewrite Hc.
  rewrite run_bind, (read_state_run _ _ cs) by (rewrite Hst; apply lookup_middle).
  rewrite Hm. rewrite run_bind. unfold iadd at 1.
  change (ret (m + 1) s) with (@inr Exn Z (m + 1), s). cbv beta iota.
  rewrite run_bind. unfold write_state at 1, modify at 1. cbv beta iota zeta.
  rewrite Hst, alter_middle. fold cs1.
  rewrite run_bind, (read_state_run _ _ cs1) by apply lookup_middle.
  change (total_message_length cs1) with (total_message_length cs). rewrite Hl.
  rewrite run_bind. unfold iadd at 1.
  change (ret (l + len text) ?s0) with (@inr Exn Z (l + len text), s0).
  cbv beta iota.
  rewrite run_bind. unfold write_state at 1, modify at 1. cbv beta iota zeta.
  cbn [_channel_states]. rewrite alter_middle. fold cs2.
  reflexivity.
Qed.

End RunFacts.

(** ** Scanning one channel *)

Section ScanFacts.

Variable ctx : Context.
Variables after_ before_ : datetime.
Implicit Types (done todo : list ChannelState) (s : BuildContext).

Lemma scanned_refl done todo cs s :
  _channel_states s = done ++ cs :: todo →
  status cs = IN_PROGRESS →
  is_Some (total_messages cs) → is_Some (total_message_length cs) →
  scanned done todo s s.
Proof.
  intros. split; [by exists cs, cs|exists []; by rewrite app_nil_r|done..].
Qed.

Lemma scanned_trans done todo s1 s2 s3 :
  scanned done todo s1 s2 → scanned done todo s2 s3 → scanned done todo s1 s3.
Proof.
  intros [(cs & cs' & Ha1 & Ha2 & Ha3 & Ha4 & Ha5 & Ha6 & Ha7)
            (xs & Hx & Hxs) Hal Hap Haf Hab]
         [(cs2 & cs3 & Hb1 & Hb2 & Hb3 & Hb4 & Hb5 & Hb6 & Hb7)
            (ys & Hy & Hys) Hbl Hbp Hbf Hbb].
  rewrite Ha2 in Hb1. apply app_inv_head in Hb1. injection Hb1 as <-.
  split.
  - exists cs, cs3. repeat split; [done|done|congruence|congruence|done..].
  - exists (xs ++ ys). rewrite Hy, Hx, map_app, (assoc_L (++)).
    split; [done|by apply Forall_app].
  - auto.
  - congruence.
  - congruence.
  - congruence.
Qed.

Lemma scan_message_scanned done todo cs s (message : Message) :
  _channel_states s = done ++ cs :: todo →
  status cs = IN_PROGRESS →
  is_Some (total_messages cs) → is_Some (total_message_length cs) →
  ∃ s', scan_message (length done) message s = (inr tt, s') ∧
        scanned done todo s s'.
Proof.
  intros Hst Hip [m Hm] [l Hl].
  destruct (content message) as [text|] eqn:Hc.
  - eexists. split; [by apply (scan_message_text done todo cs s message text m l)|].
    split; simpl.
    + eexists cs, _. repeat split; [done|done|done..|by eexists|by eexists].
    + eexists [_; _]. simpl. rewrite <- (assoc_L (++)). split; [done|].
      by repeat constructor.
    + intros _. by rewrite last_snoc.
    + done.
    + done.
    + done.
  - exists s. split; [unfold scan_message; by rewrite Hc|].
    by apply (scanned_refl _ _ cs).
Qed.

Lemma scan_history_scanned done todo (h : History) : ∀ cs s,
  _channel_states s = done ++ cs :: todo →
  status cs = IN_PROGRESS →
  is_Some (total_messages cs) → is_Some (total_message_length cs) →
  ∃ s', scan_history (length done) h s
        = (match raises h with Some e => inl e | None => inr tt end, s') ∧
        scanned done todo s s'.
Proof.
  induction h as [|message rest IH|e]; intros cs s Hst Hip Hm Hl; simpl.
  - exists s. split; [done|by apply (scanned_refl _ _ cs)].
  - destruct (scan_message_scanned done todo cs s message Hst Hip Hm Hl)
      as (s1 & Hrun1 & Hsc1).
    rewrite run_bind, Hrun1.
    destruct (sc_states _ _ _ _ Hsc1) as (? & cs1 & _ & Hst1 & _ & _ & ? & ? & ?).
    destruct (IH cs1 s1) as (s2 & Hrun2 & Hsc2); [done..|].
    exists s2. split; [done|]. by eapply scanned_trans.
  - exists s. split; [done|by apply (scanned_refl _ _ cs)].
Qed.

(** What one turn of the loop does to the channel between [done] and
    [todo]. *)
Lemma scan_channel_run done todo cs s :
  _channel_states s = done ++ cs :: todo →
  let failure := raises (history ctx (channel cs) after_ before_) in
  ∃ s' cs' xs,
    scan_channel ctx after_ before_ (length done) s
    = (match failure with Some e => inl e | None => inr tt end, s') ∧
    _channel_states s' = done ++ cs' :: todo ∧
    help_channel cs' = help_channel cs ∧ channel cs' = channel cs ∧
    status cs' = match failure with
                 | Some _ => IN_PROGRESS
                 | None => COMPLETE
                 end ∧
    is_Some (total_messages cs') ∧ is_Some (total_message_length cs') ∧
    observed s'
    = observed s ++ map (λ x, done ++ x :: todo)
                        (xs ++ match failure with
                               | Some _ => []
                               | None => [cs']
                               end) ∧
    xs ≠ [] ∧ Forall (λ x, status x = IN_PROGRESS) xs ∧
    last (observed s') = Some (_channel_states s') ∧
    progress s' = progress s ++ [done ++ set_status IN_PROGRESS cs :: todo] ∧
    fetched s' = fetched s ++ [channel cs] ∧
    _built_at s' = _built_at s.
Proof.
  intros Hst failure. unfold scan_channel.
  rewrite run_bind. unfold write_state at 1, modify at 1. cbv beta iota zeta.
  rewrite Hst, alter_middle.
  rewrite run_bind. unfold update at 1, modify at 1. cbv beta iota zeta.
  cbn [_progress_message _built_at _channel_states _user_table progress
       fetched observed].
  rewrite run_bind, (read_state_run _ _ (set_status IN_PROGRESS cs))
    by apply lookup_middle.
  rewrite run_bind. unfold open_history at 1. rewrite run_bind.
  unfold modify at 1. cbv beta iota zeta.
  cbn [_progress_message _built_at _channel_states _user_table progress
       fetched observed].
  change (ret ?h0 ?s0) with (@inr Exn History h0, s0). cbv beta iota.
  rewrite run_bind. unfold write_state at 1, modify at 1. cbv beta iota zeta.
  cbn [_progress_message _built_at _channel_states _user_table progress
       fetched observed].
  rewrite alter_middle.
  rewrite run_bind. unfold write_state at 1, modify at 1. cbv beta iota zeta.
  cbn [_progress_message _built_at _channel_states _user_table progress
       fetched observed].
  rewrite alter_middle.
  set (cs1 := set_status IN_PROGRESS cs).
  set (cs2 := set_total_messages (Some 0) cs1).
  set (cs3 := set_total_message_length (Some 0) cs2).
  change (channel cs1) with (channel cs). fold failure.
  rewrite run_bind.
  match goal with |- context [scan_history _ _ ?s0] => set (s3 := s0) end.
  destruct (scan_history_scanned done todo
              (history ctx (channel cs) after_ before_) cs3 s3)
    as (s4 & Hrun & Hsc); [done|done|by eexists|by eexists|].
  fold failure in Hrun. rewrite Hrun.
  destruct Hsc as [(cs3' & cs4 & Hst3 & Hst4 & Hhc & Hch & Hip & Hm & Hl)
                     (xs & Hobs & Hxs) Hlast Hprog Hfetch Hbuilt].
  subst s3. cbn [_progress_message _built_at _channel_states _user_table
                 progress fetched observed] in *.
  apply app_inv_head in Hst3. injection Hst3 as <-.
  destruct failure as [e|].
  - exists s4, cs4, ([cs1; cs2; cs3] ++ xs). repeat split; try done.
    + rewrite Hobs, app_nil_r, map_app, <- !(assoc_L (++)). done.
    + by repeat constructor.
    + apply Hlast. by rewrite last_snoc.
  - unfold write_state, modify. rewrite Hst4, alter_middle.
    eexists _, (set_status COMPLETE cs4), ([cs1; cs2; cs3] ++ xs).
    repeat split; cbn [_progress_message _built_at _channel_states _user_table
                       progress fetched observed]; try done.
    + rewrite Hobs, map_app, map_app, <- !(assoc_L (++)). done.
    + by repeat constructor.
    + by rewrite last_snoc.
Qed.

End ScanFacts.

(** ** Status columns under writes to one channel *)

Section Frames.

Implicit Types (done todo ys : list ChannelState) (x cs : ChannelState).

Lemma lookup_middle_ne done todo x cs (j : nat) :
  j ≠ length done → (done ++ x :: todo) !! j = (done ++ cs :: todo) !! j.
Proof.
  intros Hj. destruct (decide (j < length done)%nat).
  - by rewrite !lookup_app_l.
  - rewrite !lookup_app_r by lia.
    destruct (j - length done)%nat eqn:Hd; [lia|done].
Qed.

Lemma column_here done todo ys :
  column (length done) (map (λ x, done ++ x :: todo) ys) = map status ys.
Proof.
  induction ys as [|y ys IH]; [done|].
  change (column (length done) (map (λ x, done ++ x :: todo) (y :: ys)))
    with (from_option
            (λ c', c' :: column (length done) (map (λ x, done ++ x :: todo) ys))
            (column (length done) (map (λ x, done ++ x :: todo) ys))
            (status <$> (done ++ y :: todo) !! length done)).
  rewrite lookup_middle. simpl. by rewrite IH.
Qed.

Lemma column_beside done todo ys cs c (j : nat) :
  j ≠ length done →
  status <$> (done ++ cs :: todo) !! j = Some c →
  column j (map (λ x, done ++ x :: todo) ys) = replicate (length ys) c.
Proof.
  intros Hj Hc. rewrite (column_constant j c), length_map; [done|].
  apply Forall_map, Forall_true. intros x.
  by rewrite (lookup_middle_ne _ _ _ cs).
Qed.

Lemma statuses_replicate (c : ChannelStatus) (l : list ChannelState) :
  Forall (λ cs, status cs = c) l → statuses l = replicate (length l) c.
Proof. induction 1 as [|x l Hx _ IH]; [done|]. simpl. by rewrite Hx, IH. Qed.

Lemma dedup_adjacent_run {A} `{EqDecision A} (l : list A) (x : A) (m : nat) :
  last l ≠ Some x →
  dedup_adjacent (l ++ replicate (S m) x) = dedup_adjacent l ++ [x].
Proof.
  intros Hl. rewrite replicate_S, cons_middle, (assoc_L (++)).
  rewrite dedup_adjacent_replicate by apply last_snoc.
  by rewrite dedup_adjacent_snoc, decide_False.
Qed.

Lemma last_app_replicate {A} (l : list A) (x : A) (m : nat) :
  last (l ++ replicate (S m) x) = Some x.
Proof. by rewrite replicate_S_end, (assoc_L (++)), last_snoc. Qed.

(** The column of a channel that is not being written keeps its run. *)
Lemma status_sequence_beside done todo ys cs obs (j : nat) :
  last obs = Some (done ++ cs :: todo) →
  j ≠ length done → (j < length (done ++ cs :: todo))%nat →
  dedup_adjacent (column j (obs ++ map (λ x, done ++ x :: todo) ys))
  = dedup_adjacent (column j obs).
Proof.
  intros Hlast Hj Hlen.
  destruct (lookup_lt_is_Some_2 _ _ Hlen) as [c Hc].
  rewrite column_app, (column_beside done todo ys cs (status c)), dedup_adjacent_replicate;
    [done| |done|by rewrite Hc].
  by eapply column_last.
Qed.

(** The column of the channel being scanned gains [IN_PROGRESS] ... *)
Lemma status_sequence_started done todo xs cs obs :
  last obs = Some (done ++ cs :: todo) →
  status cs = INCOMPLETE →
  xs ≠ [] → Forall (λ x, status x = IN_PROGRESS) xs →
  dedup_adjacent (column (length done)
                    (obs ++ map (λ x, done ++ x :: todo) xs))
  = dedup_adjacent (column (length done) obs) ++ [IN_PROGRESS].
Proof.
  intros Hlast Hcs Hne Hxs.
  assert (Hl : last (column (length done) obs) = Some INCOMPLETE).
  { rewrite <- Hcs. eapply column_last; [done|apply lookup_middle]. }
  assert (Hrun : map status xs = replicate (length xs) IN_PROGRESS)
    by (by apply statuses_replicate).
  destruct xs as [|x0 xs0]; [done|]. simpl length in Hrun.
  rewrite column_app, column_here, Hrun.
  by rewrite dedup_adjacent_run by (by rewrite Hl).
Qed.

(** ... and [COMPLETE] when the scan reaches the end. *)
Lemma status_sequence_finished done todo xs cs cs' obs :
  last obs = Some (done ++ cs :: todo) →
  status cs = INCOMPLETE →
  xs ≠ [] → Forall (λ x, status x = IN_PROGRESS) xs →
  status cs' = COMPLETE →
  dedup_adjacent (column (length done)
                    (obs ++ map (λ x, done ++ x :: todo) (xs ++ [cs'])))
  = dedup_adjacent (column (length done) obs) ++ [IN_PROGRESS; COMPLETE].
Proof.
  intros Hlast Hcs Hne Hxs Hdone.
  pose proof (status_sequence_started done todo xs cs obs Hlast Hcs Hne Hxs) as Hs.
  rewrite map_app, (assoc_L (++)), column_app. simpl map.
  change [done ++ cs' :: todo] with (map (λ x, done ++ x :: todo) [cs']).
  rewrite column_here. simpl map. rewrite Hdone, dedup_adjacent_snoc, Hs.
  rewrite decide_False; [by rewrite <- (assoc_L (++))|].
  rewrite <- last_dedup_adjacent, Hs, last_snoc. done.
Qed.

End Frames.

(** ** The loop of [build] *)

Section BuildFacts.

Variable ctx : Context.
Variable help_channels : list HelpChannel.
Variables after_ before_ : datetime.

Lemma completed_counters_present (cs : ChannelState) :
  completed cs → counters_present cs.
Proof. intros (_ & ? & ?) _. done. Qed.

Lemma untouched_counters_present (cs : ChannelState) :
  untouched cs → counters_present cs.
Proof. intros (Hs & _) Hc. congruence. Qed.

Lemma in_progress_counters_present (cs : ChannelState) :
  status cs = IN_PROGRESS → counters_present cs.
Proof. intros Hs Hc. congruence. Qed.

Lemma drop_S_middle {A} (l1 l2 : list A) (x : A) :
  drop (S (length l1)) (l1 ++ x :: l2) = l2.
Proof. rewrite cons_middle, (assoc_L (++)). apply drop_app_length'. rewrite length_app. simpl. lia. Qed.

Lemma take_S_middle {A} (l1 l2 : list A) (x : A) :
  take (S (length l1)) (l1 ++ x :: l2) = l1 ++ [x].
Proof. rewrite cons_middle, (assoc_L (++)). apply take_app_length'. rewrite length_app. simpl. lia. Qed.

(** The states written during one turn all keep the counters of every
    [COMPLETE] channel. *)
Lemma frame_counters_present (done todo ys : list ChannelState) :
  Forall completed done → Forall untouched todo →
  Forall counters_present ys →
  Forall (Forall counters_present) (map (λ x, done ++ x :: todo) ys).
Proof.
  intros Hd Ht Hys. apply Forall_map. eapply Forall_impl; [exact Hys|].
  intros x Hx. simpl. apply Forall_app. split.
  - eapply Forall_impl; [exact Hd|apply completed_counters_present].
  - constructor; [done|].
    eapply Forall_impl; [exact Ht|apply untouched_counters_present].
Qed.

(** One turn of the loop: it ends with channel [k] done and the invariant
    for [k + 1], or with the exception of the channel's history and the
    channel left in progress. *)
Lemma scan_channel_step (k : nat) (hc : HelpChannel) (s : BuildContext) :
  scan_inv ctx help_channels k s →
  help_channels !! k = Some hc →
  ∃ s',
    scan_channel ctx after_ before_ k s
    = (match raises (history ctx (channel_of hc) after_ before_) with
       | Some e => inl e
       | None => inr tt
       end, s') ∧
    match raises (history ctx (channel_of hc) after_ before_) with
    | Some _ => aborted_at help_channels k s'
    | None => scan_inv ctx help_channels (S k) s'
    end.
Proof.
  intros [Hch Hdone Htodo Hprog Hfetch Hlast Hcount Hseq Hbuilt] Hk.
  destruct (Forall2_lookup_l _ _ _ _ _ Hch Hk) as (cs & Hcs & Hhc & Hchan).
  pose proof (Forall2_length _ _ _ Hch) as Hlen.
  pose proof (lookup_lt_Some _ _ _ Hcs) as Hlt.
  pose proof (take_drop_middle _ _ _ Hcs) as Hsplit.
  set (done := take k (_channel_states s)) in *.
  set (todo := drop (S k) (_channel_states s)) in *.
  assert (Hk' : length done = k) by (subst done; rewrite length_take; lia).
  rewrite (drop_S _ _ _ Hcs) in Htodo. fold todo in Htodo.
  apply Forall_cons in Htodo as [(Hinc & _ & _) Htodo].
  assert (Hn : length (done ++ cs :: todo) = length help_channels)
    by (by rewrite Hsplit).
  assert (Htl : length todo = (length help_channels - S k)%nat).
  { rewrite length_app in Hn. simpl in Hn. lia. }
  symmetry in Hsplit.
  destruct (scan_channel_run ctx after_ before_ done todo cs s Hsplit)
    as (s' & cs' & xs & Hrun & Hst' & Hhc' & Hchan' & Hstat' & Hm' & Hl'
        & Hobs' & Hxs & Hip & Hlast' & Hprog' & Hfetch' & Hbuilt').
  rewrite Hk', Hchan in Hrun. rewrite Hchan in Hstat', Hobs'.
  exists s'. split; [exact Hrun|].
  assert (Hch' : states_of_channels help_channels (_channel_states s')).
  { unfold states_of_channels in *. rewrite Hst'. rewrite Hsplit in Hch.
    apply Forall2_app_inv_r in Hch as (hd & tl & Hhd & Htl' & ->).
    apply Forall2_cons_inv_r in Htl' as (hc0 & tl0 & [? ?] & Htl0 & ->).
    apply Forall2_app; [done|]. constructor; [|done]. split; congruence. }
  assert (Hprog'' : map statuses (progress s')
                    = replicate (length help_channels) INCOMPLETE
                        :: map (scanning_snapshot (length help_channels)) (seq 0 (S k))).
  { rewrite Hprog', map_app, Hprog, seq_S, map_app. simpl. do 2 f_equal.
    unfold scanning_snapshot, statuses. rewrite map_app. simpl.
    fold (statuses done). fold (statuses todo).
    rewrite (statuses_replicate COMPLETE done), (statuses_replicate INCOMPLETE todo).
    - by rewrite Hk', Htl.
    - eapply Forall_impl; [exact Htodo|]. by intros ? (? & _).
    - eapply Forall_impl; [exact Hdone|]. by intros ? (? & _). }
  assert (Hfetch'' : fetched s' = map channel_of (take (S k) help_channels)).
  { rewrite Hfetch', Hfetch, (take_S_r _ _ _ Hk), map_app. simpl. congruence. }
  assert (Hbeside : ∀ j ys, j ≠ k → (j < length help_channels)%nat →
            dedup_adjacent (column j (observed s ++ map (λ x, done ++ x :: todo) ys))
            = status_sequence j s).
  { intros j ys Hj Hjn. apply (status_sequence_beside done todo ys cs).
    - by rewrite Hlast, Hsplit.
    - by rewrite Hk'.
    - by rewrite Hn. }
  assert (Hlast0 : last (observed s) = Some (done ++ cs :: todo))
    by (by rewrite Hlast, Hsplit).
  destruct (raises (history ctx (channel_of hc) after_ before_)) as [e|] eqn:Hfail.
  - rewrite app_nil_r in Hobs'. split.
    + exact Hch'.
    + by rewrite Hst', <- Hk', take_app_length.
    + exists cs'. by rewrite Hst', <- Hk', lookup_middle.
    + by rewrite Hst', <- Hk', drop_S_middle.
    + exact Hprog''.
    + exact Hfetch''.
    + exact Hlast'.
    + rewrite Hobs'. apply Forall_app. split; [done|].
      apply frame_counters_present; [done..|].
      eapply Forall_impl; [exact Hip|apply in_progress_counters_present].
    + intros j Hj. unfold status_sequence. rewrite Hobs'.
      destruct (decide (j = k)) as [->|Hne].
      * rewrite decide_False by lia. rewrite <- Hk'.
        rewrite (status_sequence_started done todo xs cs) by done.
        fold (status_sequence (length done) s). rewrite Hk', Hseq by done.
        by rewrite decide_False by lia.
      * rewrite Hbeside, Hseq by done. by repeat case_decide; try lia.
  - split.
    + exact Hch'.
    + rewrite Hst', <- Hk', take_S_middle. apply Forall_app. split; [done|].
      by repeat constructor.
    + by rewrite Hst', <- Hk', drop_S_middle.
    + exact Hprog''.
    + exact Hfetch''.
    + exact Hlast'.
    + rewrite Hobs'. apply Forall_app. split; [done|].
      apply frame_counters_present; [done..|].
      apply Forall_app. split.
      * eapply Forall_impl; [exact Hip|apply in_progress_counters_present].
      * by repeat constructor.
    + intros j Hj. unfold status_sequence. rewrite Hobs'.
      destruct (decide (j = k)) as [->|Hne].
      * rewrite decide_True by lia. rewrite <- Hk'.
        rewrite (status_sequence_finished done todo xs cs cs') by done.
        fold (status_sequence (length done) s). rewrite Hk', Hseq by done.
        by rewrite decide_False by lia.
      * rewrite Hbeside, Hseq by done. by repeat case_decide; try lia.
    + congruence.
Qed.

Lemma for_each_cons {A} (body : A → M unit) (x : A) (xs : list A) (s : BuildContext) :
  for_each body (x :: xs) s
  = match body x s with
    | (inl e, s') => (inl e, s')
    | (inr _, s') => for_each body xs s'
    end.
Proof. reflexivity. Qed.

(** The context after [reset] and the first [update]. *)
Lemma build_start :
  ∃ s0,
    (reset ctx help_channels ≫= λ _, update) BuildContext_init = (inr tt, s0) ∧
    length (_channel_states s0) = length help_channels ∧
    scan_inv ctx help_channels 0 s0.
Proof.
  eexists. split; [reflexivity|]. simpl.
  set (states := map (λ hc, ChannelState_init hc (channel_of hc)) help_channels).
  assert (Hun : Forall untouched states).
  { apply Forall_map, Forall_true. by intros hc. }
  split; [apply length_map|]. split; simpl.
  - unfold states_of_channels. subst states. clear Hun.
    induction help_channels as [|hc hcs IH]; constructor; [done|apply IH].
  - constructor.
  - done.
  - f_equal. fold states. rewrite (statuses_replicate INCOMPLETE).
    + subst states. by rewrite length_map.
    + eapply Forall_impl; [exact Hun|]. by intros ? (? & _).
  - done.
  - done.
  - repeat constructor.
    eapply Forall_impl; [exact Hun|apply untouched_counters_present].
  - intros j Hj.
    assert (Hjs : (j < length states)%nat) by (subst states; by rewrite length_map).
    destruct (lookup_lt_is_Some_2 _ _ Hjs) as [cs Hcs].
    unfold status_sequence, column. simpl. fold states. rewrite Hcs. simpl.
    by rewrite (proj1 (Forall_lookup_1 _ _ _ _ Hun Hcs)).
  - done.
Qed.

(** The whole loop, from channel [k] on: it ends with every channel done,
    or it stops at the first channel whose history raises. *)
Lemma scan_loop (m : nat) : ∀ (k : nat) (s : BuildContext),
  scan_inv ctx help_channels k s →
  (k + m = length help_channels)%nat →
  match for_each (scan_channel ctx after_ before_) (seq k m) s with
  | (inr _, s') =>
      scan_inv ctx help_channels (length help_channels) s' ∧
      Forall (λ hc, raises (history ctx (channel_of hc) after_ before_) = None)
             (drop k help_channels)
  | (inl e, s') =>
      ∃ j hc, (k ≤ j)%nat ∧ help_channels !! j = Some hc ∧
              raises (history ctx (channel_of hc) after_ before_) = Some e ∧
              aborted_at help_channels j s' ∧
              Forall (λ hc, raises (history ctx (channel_of hc) after_ before_) = None)
                     (take (j - k) (drop k help_channels))
  end.
Proof.
  induction m as [|m IH]; intros k s Hinv Hk.
  - simpl. replace k with (length help_channels) in * by lia.
    split; [done|]. by rewrite drop_all.
  - assert (Hlt : (k < length help_channels)%nat) by lia.
    destruct (lookup_lt_is_Some_2 _ _ Hlt) as [hc Hhc].
    destruct (scan_channel_step k hc s Hinv Hhc) as (s1 & Hrun & Hpost).
    simpl seq. rewrite for_each_cons, Hrun.
    destruct (raises (history ctx (channel_of hc) after_ before_)) as [e|] eqn:Hfail.
    + exists k, hc. split_and!; [lia|done..|]. by rewrite Nat.sub_diag.
    + specialize (IH (S k) s1 Hpost ltac:(lia)).
      destruct (for_each (scan_channel ctx after_ before_) (seq (S k) m) s1)
        as [[e|[]] s2].
      * destruct IH as (j & hc' & Hj & Hhc' & Hfail' & Hab & Hok).
        exists j, hc'. split_and!; [lia|done..|].
        rewrite (drop_S _ _ _ Hhc).
        replace (j - k)%nat with (S (j - S k)) by lia.
        simpl. by constructor.
      * destruct IH as [Hinv' Hok]. split; [done|].
        rewrite (drop_S _ _ _ Hhc). by constructor.
Qed.

(** What a run of [build] comes to. *)
Lemma build_outcome :
  match run_build ctx help_channels after_ before_ with
  | (inr report, s') =>
      ∃ s, scan_inv ctx help_channels (length help_channels) s ∧
           s' = (update s).2 ∧
           report = {| after := after_; before := before_; built_at := utcnow ctx;
                       channel_states := _channel_states s;
                       user_table := _user_table s |} ∧
           Forall (λ hc, raises (history ctx (channel_of hc) after_ before_) = None)
                  help_channels
  | (inl e, s') =>
      ∃ k hc, help_channels !! k = Some hc ∧
              raises (history ctx (channel_of hc) after_ before_) = Some e ∧
              aborted_at help_channels k s' ∧
              Forall (λ hc, raises (history ctx (channel_of hc) after_ before_) = None)
                     (take k help_channels)
  end.
Proof.
  destruct build_start as (s0 & Hstart & Hlen & Hinv).
  pose proof (scan_loop (length help_channels) 0 s0 Hinv eq_refl) as Hloop.
  unfold run_build, build.
  rewrite run_bind in Hstart.
  destruct (reset ctx help_channels BuildContext_init) as [[e|[]] sr] eqn:Hreset;
    [done|].
  rewrite run_bind, Hreset. rewrite run_bind, Hstart.
  rewrite run_bind. unfold gets at 1. rewrite Hlen.
  rewrite run_bind.
  destruct (for_each (scan_channel ctx after_ before_)
              (seq 0 (length help_channels)) s0) as [[e|[]] s1].
  - destruct Hloop as (j & hc & _ & Hhc & Hfail & Hab & Hok).
    exists j, hc. rewrite Nat.sub_0_r in Hok. by rewrite drop_0 in Hok.
  - destruct Hloop as [Hinv1 Hok]. rewrite drop_0 in Hok.
    rewrite run_bind. unfold update at 1, modify at 1. cbv beta iota zeta.
    rewrite run_bind. unfold gets at 1. cbv beta iota zeta.
    cbn [_built_at id]. rewrite (inv_built_at _ _ _ _ Hinv1).
    unfold ret. exists s1. split_and!; [done| |done..].
    unfold update, modify. simpl. by rewrite (inv_built_at _ _ _ _ Hinv1).
Qed.

End BuildFacts.

(** ** Counting messages *)

Lemma nom_scan_message_text (done todo : list ChannelState) (cs : ChannelState)
  (s : BuildContext) (message : Message) (text : string) (m l : Z) :
  _channel_states s = done ++ cs :: todo →
  content message = Some text →
  total_messages cs = Some m →
  total_message_length cs = Some l →
  let cs1 := set_total_messages (Some (m + 1)) cs in
  let cs2 := set_total_message_length (Some (l + len text)) cs1 in
  Nom.scan_message (length done) message s
  = (inr tt,
     {| _progress_message := _progress_message s; _built_at := _built_at s;
        _channel_states := done ++ cs2 :: todo;
        _user_table := _user_table s;
        progress := progress s; fetched := fetched s;
        observed := (observed s ++ [done ++ cs1 :: todo])
                      ++ [done ++ cs2 :: todo] |}).
Proof.
  intros Hst Hc Hm Hl cs1 cs2. unfold Nom.scan_message. rewrite Hc.
  rewrite run_bind, (read_state_run _ _ cs) by (rewrite Hst; apply lookup_middle).
  rewrite Hm. rewrite run_bind. unfold iadd at 1.
  change (ret (m + 1) s) with (@inr Exn Z (m + 1), s). cbv beta iota.
  rewrite run_bind. unfold write_state at 1, modify at 1. cbv beta iota zeta.
  rewrite Hst, alter_middle. fold cs1.
  rewrite run_bind, (read_state_run _ _ cs1) by apply lookup_middle.
  change (total_message_length cs1) with (total_message_length cs). rewrite Hl.
  rewrite run_bind. unfold iadd at 1.
  change (ret (l + len text) ?s0) with (@inr Exn Z (l + len text), s0).
  cbv beta iota.
  unfold write_state, modify.
  cbn [_channel_states]. rewrite alter_middle. fold cs2.
  reflexivity.
Qed.

(** X20: the loop body tells messages apart by [isinstance(content, str)].
    A message whose content is a string, empty or not, adds one to the
    channel's [total_messages], the length of the string to its
    [total_message_length] and to the author's entry for the day, and changes
    no other channel and no other entry; a message whose content is not a
    string leaves the whole context as it was.  [HelpChatNomContext.run]
    counts the same way and has no table. *)
Theorem scan_message_counts (s : BuildContext) (i : nat) (cs : ChannelState)
  (m l : Z) (message : Message) :
  _channel_states s !! i = Some cs →
  total_messages cs = Some m →
  total_message_length cs = Some l →
  let daily_key := (year (created_at message), month (created_at message),
                    day (created_at message)) in
  match content message with
  | Some text =>
      ∃ s' cs' s_nom,
        scan_message i message s = (inr tt, s') ∧
        _channel_states s' !! i = Some cs' ∧
        total_messages cs' = Some (m + 1) ∧
        total_message_length cs' = Some (l + len text) ∧
        status cs' = status cs ∧
        (∀ j, j ≠ i → _channel_states s' !! j = _channel_states s !! j) ∧
        table_entry (_user_table s') (author_id message) daily_key
        = table_entry (_user_table s) (author_id message) daily_key + len text ∧
        (∀ author daily_key',
           (author, daily_key') ≠ (author_id message, daily_key) →
           table_entry (_user_table s') author daily_key'
           = table_entry (_user_table s) author daily_key') ∧
        Nom.scan_message i message s = (inr tt, s_nom) ∧
        _channel_states s_nom = _channel_states s' ∧
        _user_table s_nom = _user_table s
  | None =>
      scan_message i message s = (inr tt, s) ∧
      Nom.scan_message i message s = (inr tt, s)
  end.
Proof.
  intros Hcs Hm Hl daily_key.
  destruct (content message) as [text|] eqn:Hc.
  - pose proof (take_drop_middle _ _ _ Hcs) as Hsplit. symmetry in Hsplit.
    pose proof (lookup_lt_Some _ _ _ Hcs) as Hlt.
    assert (Hi : length (take i (_channel_states s)) = i)
      by (rewrite length_take; lia).
    pose proof (scan_message_text _ _ cs s message text m l Hsplit Hc Hm Hl) as Hrun.
    pose proof (nom_scan_message_text _ _ cs s message text m l Hsplit Hc Hm Hl) as Hnom.
    rewrite Hi in Hrun, Hnom. simpl in Hrun, Hnom.
    eexists _, _, _. split; [exact Hrun|]. cbn [_channel_states _user_table].
    split_and!.
    + rewrite <- Hi at 1. apply lookup_middle.
    + done.
    + done.
    + done.
    + intros j Hj. etrans; [|by rewrite Hsplit].
      apply lookup_middle_ne. by rewrite Hi.
    + apply record_message_entry.
    + intros author daily_key' Hne. by apply record_message_other.
    + exact Hnom.
    + done.
    + done.
  - unfold scan_message, Nom.scan_message. by rewrite Hc.
Qed.

(** One text message of five characters in the sample context. *)
Lemma scan_message_counts_witness :
  ∃ s' cs',
    scan_message 0 (Sample.text_message 101 "hello" 1) Sample.scanning = (inr tt, s') ∧
    _channel_states s' !! 0%nat = Some cs' ∧
    total_messages cs' = Some 1 ∧
    total_message_length cs' = Some 5 ∧
    table_entry (_user_table s') 101 (2024, 1, 1) = 5.
Proof.
  destruct (scan_message_counts Sample.scanning 0 Sample.scanning_state 0 0
              (Sample.text_message 101 "hello" 1) eq_refl eq_refl eq_refl)
    as (s' & cs' & s_nom & Hrun & Hcs & Hm & Hl & _ & _ & Htable & _).
  exists s', cs'. split_and!; [exact Hrun|exact Hcs|exact Hm|exact Hl|exact Htable].
Defined.

(** ** Messages with empty text *)

Section NewKeys.

Context {K V : Type} `{EqDecision K}.
Implicit Types (d : list (K * V)) (k : K) (v : V).

(** Assigning to a key the dictionary does not have appends the item. *)
Lemma set_absent d k v : Dict.get k d = None → Dict.set k v d = d ++ [(k, v)].
Proof.
  induction d as [|[k' v'] d IH]; simpl; [done|].
  destruct (decide (k' = k)) as [->|Hne]; [done|].
  intros Hg. by rewrite IH.
Qed.

Lemma set_appended d k v v' :
  Dict.get k d = None → Dict.set k v (d ++ [(k, v')]) = d ++ [(k, v)].
Proof.
  induction d as [|[k0 v0] d IH]; simpl.
  - intros _. by rewrite decide_True.
  - destruct (decide (k0 = k)) as [->|Hne]; [done|].
    intros Hg. by rewrite IH.
Qed.

End NewKeys.

(** The first message of an author appends the author to the table, with a
    record of one day. *)
Lemma record_message_new_author (author : IDType) (daily_key : DailyKey)
  (message_length : Z) (table : UserTable) :
  Dict.get author table = None →
  record_message author daily_key message_length table
  = table ++ [(author, [(daily_key, message_length)])].
Proof.
  intros Hnew. unfold record_message, Dict.getitem_default.
  unfold UserTable, UserRecord, DailyKey, IDType in *.
  rewrite Hnew. simpl. rewrite decide_True by done.
  rewrite (set_absent table author [] Hnew).
  by rewrite (set_appended table author _ [] Hnew).
Qed.

(** After a message the author has a record, and the record has the day. *)
Lemma record_message_inserts (author : IDType) (daily_key : DailyKey)
  (message_length : Z) (table : UserTable) :
  ∃ user_record,
    Dict.get author (record_message author daily_key message_length table)
    = Some user_record ∧
    Dict.get daily_key user_record
    = Some (table_entry table author daily_key + message_length).
Proof.
  unfold record_message, table_entry.
  pose proof (getitem_default_value [] author table) as Hv1.
  destruct (Dict.getitem_default [] author table) as [user_record table1] eqn:Ht.
  pose proof (getitem_default_value 0 daily_key user_record) as Hv2.
  destruct (Dict.getitem_default 0 daily_key user_record) as [old user_record1] eqn:Hr.
  simpl in Hv1, Hv2. subst old user_record.
  eexists. split; [apply get_set_eq|].
  rewrite get_set_eq. do 2 f_equal.
  unfold UserTable, UserRecord, DailyKey, IDType in *.
  by destruct (Dict.get author table).
Qed.

(** C4, where the code departs from the claim: the loop body skips a message
    only when its content is not a string.  A message whose content is the
    empty string, which is what a message with nothing but an attachment
    carries, has no text and is counted all the same: the channel's
    [total_messages] grows by one (in [HelpChatNomContext.run] too), the
    author gets a record and the record gets the day, so the context is not
    left unchanged; an author not yet in the table is appended to it and
    shows in [get_user_results] as a row with score [0] and one active
    day. *)
Theorem scan_message_empty_text_counted (s : BuildContext) (i : nat)
  (cs : ChannelState) (m l : Z) (message : Message) :
  _channel_states s !! i = Some cs →
  total_messages cs = Some m →
  total_message_length cs = Some l →
  content message = Some "" →
  let author := author_id message in
  let daily_key := (year (created_at message), month (created_at message),
                    day (created_at message)) in
  ∃ s' cs' s_nom cs_nom,
    scan_message i message s = (inr tt, s') ∧
    s' ≠ s ∧
    _channel_states s' !! i = Some cs' ∧
    total_messages cs' = Some (m + 1) ∧
    total_message_length cs' = Some l ∧
    (∃ user_record,
       Dict.get author (_user_table s') = Some user_record ∧
       Dict.get daily_key user_record
       = Some (table_entry (_user_table s) author daily_key)) ∧
    (Dict.get author (_user_table s) = None →
     _user_table s' = _user_table s ++ [(author, [(daily_key, 0)])] ∧
     ∀ before_ after_ : HelpChatReport,
       user_table before_ = _user_table s →
       user_table after_ = _user_table s' →
       get_user_results after_ = get_user_results before_ ++ [(author, 0, 1)]) ∧
    Nom.scan_message i message s = (inr tt, s_nom) ∧
    _channel_states s_nom !! i = Some cs_nom ∧
    total_messages cs_nom = Some (m + 1) ∧
    total_message_length cs_nom = Some l.
Proof.
  intros Hcs Hm Hl Hc author daily_key.
  pose proof (take_drop_middle _ _ _ Hcs) as Hsplit. symmetry in Hsplit.
  pose proof (lookup_lt_Some _ _ _ Hcs) as Hlt.
  assert (Hi : length (take i (_channel_states s)) = i)
    by (rewrite length_take; lia).
  pose proof (scan_message_text _ _ cs s message "" m l Hsplit Hc Hm Hl) as Hrun.
  pose proof (nom_scan_message_text _ _ cs s message "" m l Hsplit Hc Hm Hl) as Hnom.
  rewrite Hi in Hrun, Hnom. simpl in Hrun, Hnom.
  change (len "") with 0 in Hrun, Hnom. rewrite Z.add_0_r in Hrun, Hnom.
  fold author daily_key in Hrun.
  assert (Hhere : ∀ cs2 : ChannelState,
            (take i (_channel_states s) ++ cs2 :: drop (S i) (_channel_states s)) !! i
            = Some cs2).
  { intros cs2.
    pose proof (lookup_middle (take i (_channel_states s))
                  (drop (S i) (_channel_states s)) cs2) as Hmid.
    by rewrite Hi in Hmid. }
  eexists _, _, _, _. split; [exact Hrun|]. cbn [_channel_states _user_table].
  split_and!.
  - intros Heq. apply (f_equal (λ st, _channel_states st !! i)) in Heq.
    cbn [_channel_states] in Heq. rewrite Hhere, Hcs in Heq.
    injection Heq as Heq. apply (f_equal total_messages) in Heq.
    simpl in Heq. rewrite Hm in Heq. injection Heq as Heq. lia.
  - apply Hhere.
  - done.
  - done.
  - destruct (record_message_inserts author daily_key 0 (_user_table s))
      as (user_record & Hget & Hday).
    exists user_record. split; [exact Hget|]. by rewrite Z.add_0_r in Hday.
  - intros Hnew.
    pose proof (record_message_new_author author daily_key 0 (_user_table s) Hnew)
      as Htable.
    split; [exact Htable|].
    intros before_ after_ Hb Ha. unfold get_user_results.
    rewrite Ha, Htable, map_app, Hb. done.
  - exact Hnom.
  - apply Hhere.
  - done.
  - done.
Qed.

(** An attachment from author 102 in the sample context, whose table is
    empty: the message is counted and the author is in the table. *)
Lemma scan_message_empty_text_counted_witness :
  ∃ s' cs',
    scan_message 0 (Sample.empty_text 102 1) Sample.scanning = (inr tt, s') ∧
    s' ≠ Sample.scanning ∧
    _channel_states s' !! 0%nat = Some cs' ∧
    total_messages cs' = Some 1 ∧
    total_message_length cs' = Some 0 ∧
    _user_table s' = [(102, [((2024, 1, 1), 0)])].
Proof.
  destruct (scan_message_empty_text_counted Sample.scanning 0 Sample.scanning_state
              0 0 (Sample.empty_text 102 1) eq_refl eq_refl eq_refl eq_refl)
    as (s' & cs' & s_nom & cs_nom & Hrun & Hne & Hcs & Hm & Hl & _ & Hnew & _).
  destruct (Hnew eq_refl) as [Htable _].
  exists s', cs'.
  split_and!; [exact Hrun|exact Hne|exact Hcs|exact Hm|exact Hl|exact Htable].
Defined.

(** ** Runs of [build] *)

Lemma statuses_completed (states : list ChannelState) :
  Forall completed states → statuses states = replicate (length states) COMPLETE.
Proof.
  intros H. apply statuses_replicate.
  eapply Forall_impl; [exact H|]. by intros ? (? & _).
Qed.

Lemma statuses_untouched (states : list ChannelState) :
  Forall untouched states → statuses states = replicate (length states) INCOMPLETE.
Proof.
  intros H. apply statuses_replicate.
  eapply Forall_impl; [exact H|]. by intros ? (? & _).
Qed.

(** C2, refuted on the sample run over two channels: [update] is called four
    times, and no snapshot shows the first channel done with the second
    still pending. *)
Lemma build_progress_two_channels :
  let r := run_build Sample.ctx_ok [Sample.channel_a; Sample.channel_b]
             Sample.window_after Sample.window_before in
  map statuses (progress r.2)
  = [ [INCOMPLETE; INCOMPLETE]; [IN_PROGRESS; INCOMPLETE];
      [COMPLETE; IN_PROGRESS]; [COMPLETE; COMPLETE] ] ∧
  map statuses (progress r.2)
  ≠ [ [INCOMPLETE; INCOMPLETE]; [IN_PROGRESS; INCOMPLETE];
      [COMPLETE; INCOMPLETE]; [COMPLETE; IN_PROGRESS]; [COMPLETE; COMPLETE] ].
Proof. split; [by vm_compute|]. by vm_compute. Qed.

(** C2, amended: in a run in which no history raises, the snapshots are the
    all-[INCOMPLETE] one, then one per channel in input order showing that
    channel [IN_PROGRESS], the earlier ones [COMPLETE] and the later ones
    [INCOMPLETE], then the all-[COMPLETE] one; no snapshot is taken when a
    channel becomes [COMPLETE]. *)
Theorem build_progress_snapshots (ctx : Context) (help_channels : list HelpChannel)
  (after_ before_ : datetime) :
  Forall (λ hc, raises (history ctx (channel_of hc) after_ before_) = None)
         help_channels →
  let n := length help_channels in
  map statuses (progress (run_build ctx help_channels after_ before_).2)
  = replicate n INCOMPLETE
      :: map (scanning_snapshot n) (seq 0 n) ++ [replicate n COMPLETE].
Proof.
  intros Hok n.
  pose proof (build_outcome ctx help_channels after_ before_) as Hout.
  destruct (run_build ctx help_channels after_ before_) as [[e|report] s'].
  - destruct Hout as (k & hc & Hhc & Hfail & _).
    pose proof (Forall_lookup_1 _ _ _ _ Hok Hhc) as Hnone. simpl in Hnone. congruence.
  - destruct Hout as (s & Hinv & -> & _ & _).
    destruct Hinv as [Hch Hdone _ Hprog _ _ _ _ _].
    pose proof (Forall2_length _ _ _ Hch) as Hlen. fold n in Hlen.
    simpl. rewrite map_app, Hprog. simpl. do 2 f_equal.
    rewrite take_ge in Hdone by lia.
    by rewrite statuses_completed, <- Hlen.
Qed.

(** The sample run over two channels. *)
Lemma build_progress_snapshots_witness :
  map statuses
      (progress (run_build Sample.ctx_ok [Sample.channel_a; Sample.channel_b]
                   Sample.window_after Sample.window_before).2)
  = replicate 2 INCOMPLETE
      :: map (scanning_snapshot 2) (seq 0 2) ++ [replicate 2 COMPLETE].
Proof.
  apply (build_progress_snapshots Sample.ctx_ok
           [Sample.channel_a; Sample.channel_b]).
  repeat constructor.
Defined.

(** C7: when the history of a channel raises, [build] raises the same
    exception and returns no report; only the channels up to the failing
    one had their history requested; the failing channel is left
    [IN_PROGRESS] and was never [COMPLETE]; the channels after it are as
    [reset] made them. *)
Theorem build_aborts_on_fetch_error (ctx : Context) (pre post : list HelpChannel)
  (hc : HelpChannel) (after_ before_ : datetime) (e : Exn) :
  Forall (λ hc', raises (history ctx (channel_of hc') after_ before_) = None) pre →
  raises (history ctx (channel_of hc) after_ before_) = Some e →
  let r := run_build ctx (pre ++ hc :: post) after_ before_ in
  r.1 = inl e ∧
  fetched r.2 = map channel_of (pre ++ [hc]) ∧
  statuses (_channel_states r.2)
  = replicate (length pre) COMPLETE ++ [IN_PROGRESS]
      ++ replicate (length post) INCOMPLETE ∧
  Forall untouched (drop (S (length pre)) (_channel_states r.2)) ∧
  status_sequence (length pre) r.2 = [INCOMPLETE; IN_PROGRESS] ∧
  ∀ j, (length pre < j < length (pre ++ hc :: post))%nat →
       status_sequence j r.2 = [INCOMPLETE].
Proof.
  intros Hpre Hfail r. subst r.
  pose proof (build_outcome ctx (pre ++ hc :: post) after_ before_) as Hout.
  destruct (run_build ctx (pre ++ hc :: post) after_ before_) as [[e'|report] s'].
  - destruct Hout as (k & hc' & Hhc' & Hfail' & Hab & Hok).
    assert (Hk : k = length pre).
    { destruct (lt_eq_lt_dec k (length pre)) as [[Hlt|Heq]|Hgt]; [|done|].
      - rewrite lookup_app_l in Hhc' by done.
        pose proof (Forall_lookup_1 _ _ _ _ Hpre Hhc') as Hnone.
        simpl in Hnone. congruence.
      - assert (Hin : take k (pre ++ hc :: post) !! length pre = Some hc).
        { rewrite lookup_take_lt by done. apply lookup_middle. }
        pose proof (Forall_lookup_1 _ _ _ _ Hok Hin) as Hnone.
        simpl in Hnone. congruence. }
    subst k. rewrite lookup_middle in Hhc'. injection Hhc' as <-.
    assert (e' = e) as -> by congruence.
    destruct Hab as [Hch Hdone (cs & Hcs & Hip) Htodo _ Hfetch _ _ Hseq].
    pose proof (Forall2_length _ _ _ Hch) as Hlen.
    rewrite length_app in Hlen. simpl in Hlen.
    simpl. split_and!.
    + done.
    + by rewrite Hfetch, take_S_middle.
    + rewrite <- (take_drop_middle _ _ _ Hcs).
      unfold statuses. rewrite map_app. simpl.
      fold (statuses (take (length pre) (_channel_states s'))).
      fold (statuses (drop (S (length pre)) (_channel_states s'))).
      rewrite statuses_completed, statuses_untouched, Hip by done.
      rewrite length_take, length_drop. do 3 f_equal; lia.
    + done.
    + rewrite Hseq by (rewrite length_app; simpl; lia).
      rewrite decide_False by lia. by rewrite decide_True.
    + intros j Hj. rewrite Hseq by lia.
      rewrite decide_False by lia. by rewrite decide_False by lia.
  - destruct Hout as (s & _ & _ & _ & Hok).
    apply Forall_app in Hok as [_ Hok]. apply Forall_cons in Hok as [Hnone _].
    simpl in Hnone. congruence.
Qed.

(** The sample run in which the second history raises. *)
Lemma build_aborts_on_fetch_error_witness :
  let r := run_build Sample.ctx_failing [Sample.channel_a; Sample.channel_b]
             Sample.window_after Sample.window_before in
  r.1 = inl (HTTPException 503) ∧
  fetched r.2 = map channel_of [Sample.channel_a; Sample.channel_b] ∧
  statuses (_channel_states r.2) = [COMPLETE; IN_PROGRESS] ∧
  status_sequence 1 r.2 = [INCOMPLETE; IN_PROGRESS].
Proof.
  assert (Hpre : Forall (λ hc', raises (history Sample.ctx_failing (channel_of hc')
                                   Sample.window_after Sample.window_before) = None)
                   [Sample.channel_a]) by (repeat constructor).
  destruct (build_aborts_on_fetch_error Sample.ctx_failing [Sample.channel_a] []
              Sample.channel_b Sample.window_after Sample.window_before
              (HTTPException 503) Hpre eq_refl)
    as (Hres & Hfetched & Hstat & _ & Hseq & _).
  split_and!; [exact Hres|exact Hfetched|exact Hstat|exact Hseq].
Defined.



(** C9: in every value the channel states take during a run, a [COMPLETE]
    channel has both counters set; and the report of a run that returns
    holds one [COMPLETE] state with both counters for every channel. *)
Theorem complete_channels_have_counters (ctx : Context)
  (help_channels : list HelpChannel) (after_ before_ : datetime) :
  let r := run_build ctx help_channels after_ before_ in
  Forall (Forall counters_present) (observed r.2) ∧
  last (observed r.2) = Some (_channel_states r.2) ∧
  match r.1 with
  | inr report =>
      channel_states report = _channel_states r.2 ∧
      length (channel_states report) = length help_channels ∧
      Forall completed (channel_states report)
  | inl _ => True
  end.
Proof.
  intros r. subst r.
  pose proof (build_outcome ctx help_channels after_ before_) as Hout.
  destruct (run_build ctx help_channels after_ before_) as [[e|report] s']; simpl.
  - destruct Hout as (k & hc & _ & _ & Hab & _). split_and!; [| |done].
    + apply (ab_counters _ _ _ Hab).
    + apply (ab_last _ _ _ Hab).
  - destruct Hout as (s & Hinv & -> & -> & _).
    destruct Hinv as [Hch Hdone _ _ _ Hlast Hcount _ _].
    pose proof (Forall2_length _ _ _ Hch) as Hlen.
    rewrite take_ge in Hdone by lia.
    simpl. split_and!; done.
Qed.

(* ================================================================== *)
(** * Further properties of the code *)
(* ================================================================== *)

(** ** The user table *)

Section TableFacts.

Context {K V : Type} `{EqDecision K}.
Implicit Types (d : list (K * V)) (k : K) (v : V).

Lemma get_is_Some_keys d k : is_Some (Dict.get k d) ↔ k ∈ Dict.keys d.
Proof.
  unfold Dict.keys. induction d as [|[k' v'] d IH]; simpl.
  - split; [by intros [? ?]|by intros ?%elem_of_nil].
  - destruct (decide (k' = k)) as [->|Hne].
    + split; [intros _; apply list_elem_of_here|by eexists].
    + rewrite IH. split; [apply list_elem_of_further|].
      intros [?|?]%elem_of_cons; [congruence|done].
Qed.

Lemma keys_set d k v : Dict.keys (Dict.set k v d) = add_new (Dict.keys d) k.
Proof.
  unfold Dict.keys, add_new. induction d as [|[k' v'] d IH]; [done|].
  simpl Dict.set. rewrite (fmap_cons fst (k', v') d). simpl fst.
  destruct (decide (k' = k)) as [->|Hne].
  - rewrite fmap_cons. simpl fst.
    rewrite decide_True; [done|apply list_elem_of_here].
  - rewrite fmap_cons, IH. simpl fst.
    destruct (decide (k ∈ d.*1)) as [Hin|Hnin].
    + rewrite decide_True; [done|by apply list_elem_of_further].
    + rewrite decide_False; [done|].
      intros [?|?]%elem_of_cons; [congruence|done].
Qed.

Lemma keys_getitem_default v0 k d :
  Dict.keys (Dict.getitem_default v0 k d).2 = add_new (Dict.keys d) k.
Proof.
  unfold Dict.getitem_default. destruct (Dict.get k d) as [v|] eqn:Hg; simpl.
  - unfold add_new. rewrite decide_True; [done|].
    apply get_is_Some_keys. by rewrite Hg.
  - apply keys_set.
Qed.

Lemma get_getitem_default v0 k d :
  Dict.get k (Dict.getitem_default v0 k d).2 = Some (default v0 (Dict.get k d)).
Proof.
  unfold Dict.getitem_default. destruct (Dict.get k d) as [v|] eqn:Hg; simpl.
  - done.
  - apply get_set_eq.
Qed.

(** In a dictionary without repeated keys, every item is found under its
    key. *)
Lemma get_of_item d k v :
  NoDup (Dict.keys d) → (k, v) ∈ d → Dict.get k d = Some v.
Proof.
  unfold Dict.keys. induction d as [|[k' v'] d IH]; simpl.
  - by intros _ ?%elem_of_nil.
  - intros [Hk' Hnd]%NoDup_cons [Heq|Hin]%elem_of_cons.
    + simplify_eq. by rewrite decide_True.
    + rewrite decide_False; [by apply IH|].
      intros ->. apply Hk'. apply list_elem_of_fmap. by exists (k, v).
Qed.

End TableFacts.

Lemma add_new_NoDup {A} `{EqDecision A} (seen : list A) (x : A) :
  NoDup seen → NoDup (add_new seen x).
Proof.
  intros Hnd. unfold add_new. case_decide; [done|].
  apply NoDup_app. split_and!; [done| |apply NoDup_singleton].
  intros y Hy ->%list_elem_of_singleton. done.
Qed.

Lemma foldl_add_new_NoDup {A} `{EqDecision A} (xs seen : list A) :
  NoDup seen → NoDup (foldl add_new seen xs).
Proof.
  revert seen. induction xs as [|x xs IH]; intros seen Hnd; simpl; [done|].
  by apply IH, add_new_NoDup.
Qed.

Lemma first_seen_NoDup {A} `{EqDecision A} (xs : list A) : NoDup (first_seen xs).
Proof. apply foldl_add_new_NoDup, NoDup_nil_2. Qed.

Lemma elem_of_foldl_add_new {A} `{EqDecision A} (xs seen : list A) (x : A) :
  x ∈ foldl add_new seen xs ↔ x ∈ seen ∨ x ∈ xs.
Proof.
  revert seen. induction xs as [|y xs IH]; intros seen; simpl.
  - split; [by left|]. by intros [?|?%elem_of_nil].
  - rewrite IH. unfold add_new. case_decide.
    + split; [intros [?|?]; [by left|by right; right]|].
      intros [?|[->|?]%elem_of_cons]; [by left|by left|by right].
    + rewrite elem_of_app, list_elem_of_singleton, elem_of_cons. tauto.
Qed.

Lemma foldl_Z_add (acc : Z) (xs : list Z) :
  foldl Z.add acc xs = acc + sum_ints xs.
Proof.
  unfold sum_ints. revert acc. induction xs as [|x xs IH]; intros acc; simpl; [lia|].
  rewrite (IH (acc + x)), (IH (0 + x)). lia.
Qed.

Lemma sum_ints_cons (x : Z) (xs : list Z) : sum_ints (x :: xs) = x + sum_ints xs.
Proof. unfold sum_ints at 1. simpl. rewrite foldl_Z_add. lia. Qed.

Lemma sum_ints_app (xs ys : list Z) : sum_ints (xs ++ ys) = sum_ints xs + sum_ints ys.
Proof.
  induction xs as [|x xs IH]; [done|].
  change ((x :: xs) ++ ys) with (x :: (xs ++ ys)). rewrite !sum_ints_cons, IH. lia.
Qed.

(** Assigning to a key changes the sum of the values by the difference. *)
Lemma sum_values_set {K} `{EqDecision K} (d : list (K * Z)) (k : K) (v : Z) :
  sum_ints (Dict.values (Dict.set k v d))
  = sum_ints (Dict.values d) - default 0 (Dict.get k d) + v.
Proof.
  unfold Dict.values. induction d as [|[k' v'] d IH].
  - simpl. rewrite sum_ints_cons. unfold sum_ints. simpl. lia.
  - simpl Dict.set. simpl Dict.get. rewrite (fmap_cons snd (k', v') d). simpl snd.
    destruct (decide (k' = k)) as [->|Hne].
    + rewrite fmap_cons. simpl snd. simpl default. rewrite !sum_ints_cons. lia.
    + rewrite fmap_cons. simpl snd. rewrite !sum_ints_cons, IH. lia.
Qed.

Lemma add_new_idemp {A} `{EqDecision A} (seen : list A) (x : A) :
  add_new (add_new seen x) x = add_new seen x.
Proof.
  unfold add_new. destruct (decide (x ∈ seen)) as [Hin|Hnin].
  - by rewrite decide_True.
  - rewrite decide_True; [done|]. apply elem_of_app. right. apply list_elem_of_here.
Qed.

(** The record of the author after one more message. *)
Lemma record_message_get (author : IDType) (daily_key : DailyKey)
  (message_length : Z) (table : UserTable) :
  let user_record := default [] (Dict.get author table) in
  Dict.get author (record_message author daily_key message_length table)
  = Some (Dict.set daily_key
            (default 0 (Dict.get daily_key user_record) + message_length)
            (Dict.getitem_default 0 daily_key user_record).2).
Proof.
  intros user_record. subst user_record. unfold record_message.
  unfold UserTable, UserRecord, DailyKey, IDType in *.
  pose proof (getitem_default_value [] author table) as Hv.
  destruct (Dict.getitem_default [] author table) as [r table1] eqn:Ht.
  simpl in Hv. subst r.
  pose proof (getitem_default_value 0 daily_key
                (default [] (Dict.get author table))) as Hv.
  destruct (Dict.getitem_default 0 daily_key (default [] (Dict.get author table)))
    as [old r1] eqn:Hr.
  simpl in Hv. subst old. simpl. apply get_set_eq.
Qed.

Lemma record_message_get_other (author author' : IDType) (daily_key : DailyKey)
  (message_length : Z) (table : UserTable) :
  author ≠ author' →
  Dict.get author' (record_message author daily_key message_length table)
  = Dict.get author' table.
Proof.
  intros Hne. unfold record_message.
  unfold UserTable, UserRecord, DailyKey, IDType in *.
  pose proof (getitem_default_get [] author author' table Hne) as Hg.
  destruct (Dict.getitem_default [] author table) as [r table1] eqn:Ht.
  destruct (Dict.getitem_default 0 daily_key r) as [old r1] eqn:Hr.
  simpl in Hg. rewrite get_set_ne by done. exact Hg.
Qed.

(** A new author is appended to the table; a known one keeps their place. *)
Lemma record_message_keys (author : IDType) (daily_key : DailyKey)
  (message_length : Z) (table : UserTable) :
  Dict.keys (record_message author daily_key message_length table)
  = add_new (Dict.keys table) author.
Proof.
  unfold record_message.
  unfold UserTable, UserRecord, DailyKey, IDType in *.
  pose proof (keys_getitem_default [] author table) as Hk.
  destruct (Dict.getitem_default [] author table) as [r table1] eqn:Ht.
  destruct (Dict.getitem_default 0 daily_key r) as [old r1] eqn:Hr.
  simpl in Hk. rewrite keys_set, Hk. apply add_new_idemp.
Qed.

Lemma record_message_score (author : IDType) (daily_key : DailyKey)
  (message_length : Z) (table : UserTable) :
  score_of (record_message author daily_key message_length table) author
  = score_of table author + message_length.
Proof.
  unfold score_of. rewrite record_message_get. simpl default at 1.
  set (r := default [] (Dict.get author table)).
  rewrite sum_values_set, get_getitem_default. simpl default at 1.
  unfold Dict.getitem_default.
  destruct (Dict.get daily_key r) as [v|] eqn:Hg; simpl.
  - lia.
  - rewrite sum_values_set, Hg. simpl. lia.
Qed.

Lemma record_message_score_other (author author' : IDType) (daily_key : DailyKey)
  (message_length : Z) (table : UserTable) :
  author ≠ author' →
  score_of (record_message author daily_key message_length table) author'
  = score_of table author'.
Proof. intros Hne. unfold score_of. by rewrite record_message_get_other. Qed.

Lemma record_message_days (author : IDType) (daily_key : DailyKey)
  (message_length : Z) (table : UserTable) :
  Dict.keys (default [] (Dict.get author
                           (record_message author daily_key message_length table)))
  = add_new (Dict.keys (default [] (Dict.get author table))) daily_key.
Proof.
  rewrite record_message_get. simpl default at 1.
  rewrite keys_set, keys_getitem_default. apply add_new_idemp.
Qed.

(** ** The table of a whole run *)

Section RecordMessages.

Implicit Types (messages : list Message) (table : UserTable).

Lemma record_messages_cons message messages table :
  record_messages (message :: messages) table
  = record_messages messages
      match content message with
      | Some text => record_message (author_id message) (daily_key_of message)
                       (len text) table
      | None => table
      end.
Proof. reflexivity. Qed.

Lemma record_messages_app messages1 messages2 table :
  record_messages (messages1 ++ messages2) table
  = record_messages messages2 (record_messages messages1 table).
Proof. apply foldl_app. Qed.

Lemma record_messages_score messages : ∀ table author,
  score_of (record_messages messages table) author
  = score_of table author + author_total author messages.
Proof.
  induction messages as [|message messages IH]; intros table author.
  - simpl. lia.
  - rewrite record_messages_cons, IH. simpl author_total.
    destruct (content message) as [text|]; [|done].
    case_decide as Hd.
    + subst author. rewrite record_message_score. lia.
    + by rewrite record_message_score_other.
Qed.

Lemma record_messages_keys messages : ∀ table,
  Dict.keys (record_messages messages table)
  = foldl add_new (Dict.keys table) (text_authors messages).
Proof.
  induction messages as [|message messages IH]; intros table; [done|].
  rewrite record_messages_cons, IH. unfold text_authors. simpl omap.
  destruct (content message) as [text|]; [|done].
  simpl. by rewrite record_message_keys.
Qed.

Lemma record_messages_days messages : ∀ table author,
  Dict.keys (default [] (Dict.get author (record_messages messages table)))
  = foldl add_new (Dict.keys (default [] (Dict.get author table)))
          (text_days author messages).
Proof.
  induction messages as [|message messages IH]; intros table author; [done|].
  rewrite record_messages_cons, IH. unfold text_days. simpl omap.
  destruct (content message) as [text|]; [|done].
  case_decide as Hd.
  - subst author. simpl. by rewrite record_message_days.
  - simpl. by rewrite record_message_get_other.
Qed.

End RecordMessages.

(** The rows of [get_user_results], read off the table by key. *)
Lemma get_user_results_by_key (self : HelpChatReport) :
  NoDup (Dict.keys (user_table self)) →
  get_user_results self
  = map (λ author,
           (author, score_of (user_table self) author,
            Z.of_nat (length (default [] (Dict.get author (user_table self))))))
        (Dict.keys (user_table self)).
Proof.
  intros Hnd. unfold get_user_results, Dict.keys.
  set (table := user_table self) in *.
  assert (Haux : ∀ items : UserTable,
            Forall (λ item, item ∈ table) items →
            map (λ item : IDType * UserRecord,
                   let '(user_id, user_record) := item in
                   (user_id, sum_ints (Dict.values user_record),
                    Z.of_nat (length user_record))) items
            = map (λ author,
                     (author, score_of table author,
                      Z.of_nat (length (default [] (Dict.get author table)))))
                  items.*1).
  { induction items as [|[author user_record] items IH]; intros Hitems; [done|].
    apply Forall_cons in Hitems as [Hin Hitems].
    specialize (IH Hitems). simpl. f_equal; [|exact IH].
    unfold score_of. by rewrite (get_of_item _ _ _ Hnd Hin). }
  apply Haux. by apply Forall_forall.
Qed.

(** ** Scanning, with the totals *)

Lemma ChannelState_eq (cs cs' : ChannelState) :
  help_channel cs = help_channel cs' → channel cs = channel cs' →
  status cs = status cs' → total_messages cs = total_messages cs' →
  total_message_length cs = total_message_length cs' → cs = cs'.
Proof. destruct cs, cs'. simpl. congruence. Qed.

Lemma text_lengths_cons_text (message : Message) (messages : list Message)
  (text : string) :
  content message = Some text →
  text_lengths (message :: messages) = len text :: text_lengths messages.
Proof. intros Hc. unfold text_lengths. simpl. by rewrite Hc. Qed.

Lemma text_lengths_cons_none (message : Message) (messages : list Message) :
  content message = None →
  text_lengths (message :: messages) = text_lengths messages.
Proof. intros Hc. unfold text_lengths. simpl. by rewrite Hc. Qed.

Section ExactScan.

Variable ctx : Context.
Variables after_ before_ : datetime.
Implicit Types (done todo : list ChannelState) (s : BuildContext).

(** The iteration over one history: the counters grow by the number and the
    summed length of the text messages delivered, the table records each of
    them, and nothing else changes. *)
Lemma scan_history_exact done todo (h : History) : ∀ cs s m l,
  _channel_states s = done ++ cs :: todo →
  total_messages cs = Some m →
  total_message_length cs = Some l →
  ∃ s' cs',
    scan_history (length done) h s
    = (match raises h with Some e => inl e | None => inr tt end, s') ∧
    _channel_states s' = done ++ cs' :: todo ∧
    help_channel cs' = help_channel cs ∧ channel cs' = channel cs ∧
    status cs' = status cs ∧
    total_messages cs' = Some (m + Z.of_nat (length (text_lengths (yielded h)))) ∧
    total_message_length cs' = Some (l + sum_ints (text_lengths (yielded h))) ∧
    _user_table s' = record_messages (yielded h) (_user_table s) ∧
    progress s' = progress s ∧ fetched s' = fetched s ∧
    _built_at s' = _built_at s.
Proof.
  induction h as [|message rest IH|e]; intros cs s m l Hst Hm Hl.
  - exists s, cs. simpl. rewrite !Z.add_0_r. by split_and!.
  - simpl scan_history. rewrite run_bind.
    destruct (content message) as [text|] eqn:Hc.
    + rewrite (scan_message_text done todo cs s message text m l Hst Hc Hm Hl).
      cbv zeta.
      match goal with |- context [scan_history _ _ ?s0] => set (s1 := s0) end.
      destruct (IH (set_total_message_length (Some (l + len text))
                      (set_total_messages (Some (m + 1)) cs)) s1 (m + 1) (l + len text))
        as (s' & cs' & Hrun & Hst' & Hhc & Hch & Hstat & Hm' & Hl' & Htab & Hp & Hf & Hb);
        [done..|].
      exists s', cs'. simpl raises. simpl yielded.
      rewrite (text_lengths_cons_text _ _ _ Hc), sum_ints_cons.
      split_and!; try done.
      * rewrite Hm'. f_equal. simpl length. lia.
      * rewrite Hl'. f_equal. lia.
      * rewrite Htab, record_messages_cons, Hc. done.
    + assert (Hskip : scan_message (length done) message s = (inr tt, s))
        by (unfold scan_message; by rewrite Hc).
      rewrite Hskip.
      destruct (IH cs s m l Hst Hm Hl)
        as (s' & cs' & Hrun & Hst' & Hhc & Hch & Hstat & Hm' & Hl' & Htab & Hp & Hf & Hb).
      exists s', cs'. simpl raises. simpl yielded.
      rewrite (text_lengths_cons_none _ _ Hc).
      split_and!; try done.
      rewrite Htab, record_messages_cons, Hc. done.
  - exists s, cs. simpl. rewrite !Z.add_0_r. by split_and!.
Qed.

(** One turn of the loop, with the totals. *)
Lemma scan_channel_exact done todo cs s :
  _channel_states s = done ++ cs :: todo →
  let h := history ctx (channel cs) after_ before_ in
  ∃ s' cs',
    scan_channel ctx after_ before_ (length done) s
    = (match raises h with Some e => inl e | None => inr tt end, s') ∧
    _channel_states s' = done ++ cs' :: todo ∧
    help_channel cs' = help_channel cs ∧ channel cs' = channel cs ∧
    status cs' = match raises h with Some _ => IN_PROGRESS | None => COMPLETE end ∧
    total_messages cs' = Some (Z.of_nat (length (text_lengths (yielded h)))) ∧
    total_message_length cs' = Some (sum_ints (text_lengths (yielded h))) ∧
    _user_table s' = record_messages (yielded h) (_user_table s) ∧
    progress s' = progress s ++ [done ++ set_status IN_PROGRESS cs :: todo] ∧
    fetched s' = fetched s ++ [channel cs] ∧
    _built_at s' = _built_at s.
Proof.
  intros Hst h. unfold scan_channel.
  rewrite run_bind. unfold write_state at 1, modify at 1. cbv beta iota zeta.
  rewrite Hst, alter_middle.
  rewrite run_bind. unfold update at 1, modify at 1. cbv beta iota zeta.
  cbn [_progress_message _built_at _channel_states _user_table progress
       fetched observed].
  rewrite run_bind, (read_state_run _ _ (set_status IN_PROGRESS cs))
    by apply lookup_middle.
  rewrite run_bind. unfold open_history at 1. rewrite run_bind.
  unfold modify at 1. cbv beta iota zeta.
  cbn [_progress_message _built_at _channel_states _user_table progress
       fetched observed].
  change (ret ?h0 ?s0) with (@inr Exn History h0, s0). cbv beta iota.
  rewrite run_bind. unfold write_state at 1, modify at 1. cbv beta iota zeta.
  cbn [_progress_message _built_at _channel_states _user_table progress
       fetched observed].
  rewrite alter_middle.
  rewrite run_bind. unfold write_state at 1, modify at 1. cbv beta iota zeta.
  cbn [_progress_message _built_at _channel_states _user_table progress
       fetched observed].
  rewrite alter_middle.
  set (cs1 := set_status IN_PROGRESS cs).
  set (cs3 := set_total_message_length (Some 0) (set_total_messages (Some 0) cs1)).
  change (channel cs1) with (channel cs). fold h.
  rewrite run_bind.
  match goal with |- context [scan_history _ _ ?s0] => set (s3 := s0) end.
  destruct (scan_history_exact done todo h cs3 s3 0 0)
    as (s4 & cs4 & Hrun & Hst4 & Hhc & Hch & Hstat & Hm & Hl & Htab & Hp & Hf & Hb);
    [done..|].
  rewrite Hrun. rewrite !Z.add_0_l in *.
  subst s3. cbn [_progress_message _built_at _channel_states _user_table
                 progress fetched observed] in *.
  destruct (raises h) as [e|].
  - exists s4, cs4. by split_and!.
  - unfold write_state, modify. rewrite Hst4, alter_middle.
    eexists _, (set_status COMPLETE cs4).
    by split_and!; cbn [_progress_message _built_at _channel_states _user_table
                        progress fetched observed].
Qed.

End ExactScan.

(** ** The report of a run *)

Section ExactBuild.

Variable ctx : Context.
Variables after_ before_ : datetime.

Lemma scanned_state_of (hc : HelpChannel) (cs : ChannelState) :
  help_channel cs = hc → channel cs = channel_of hc → status cs = COMPLETE →
  total_messages cs
  = Some (Z.of_nat (length (text_lengths
                              (yielded (history ctx (channel_of hc) after_ before_))))) →
  total_message_length cs
  = Some (sum_ints (text_lengths
                      (yielded (history ctx (channel_of hc) after_ before_)))) →
  cs = scanned_state ctx after_ before_ hc.
Proof. intros. by apply ChannelState_eq. Qed.

(** The loop over the channels still to scan, when none of their histories
    raises. *)
Lemma scan_loop_exact (todo : list HelpChannel) : ∀ (done : list ChannelState) s,
  _channel_states s = done ++ map fresh_state todo →
  Forall (λ hc, raises (history ctx (channel_of hc) after_ before_) = None) todo →
  ∃ s',
    for_each (scan_channel ctx after_ before_) (seq (length done) (length todo)) s
    = (inr tt, s') ∧
    _channel_states s' = done ++ map (scanned_state ctx after_ before_) todo ∧
    _user_table s'
    = record_messages (run_messages ctx after_ before_ todo) (_user_table s) ∧
    progress s' = progress s ++ scanning_states ctx after_ before_ done todo ∧
    fetched s' = fetched s ++ map channel_of todo ∧
    _built_at s' = _built_at s.
Proof.
  induction todo as [|hc rest IH]; intros done s Hst Hok.
  - exists s. simpl in *. rewrite !app_nil_r in *. by split_and!.
  - apply Forall_cons in Hok as [Hhc Hok].
    simpl length. simpl seq. rewrite for_each_cons.
    destruct (scan_channel_exact ctx after_ before_ done (map fresh_state rest)
                (fresh_state hc) s Hst)
      as (s1 & cs1 & Hrun & Hst1 & Hhc1 & Hch1 & Hstat1 & Hm1 & Hl1 & Htab1
          & Hp1 & Hf1 & Hb1).
    simpl channel in *. rewrite Hhc in *. rewrite Hrun.
    assert (cs1 = scanned_state ctx after_ before_ hc) as ->
      by (by apply scanned_state_of).
    destruct (IH (done ++ [scanned_state ctx after_ before_ hc]) s1)
      as (s2 & Hrun2 & Hst2 & Htab2 & Hp2 & Hf2 & Hb2); [|done|].
    { by rewrite Hst1, <- (assoc_L (++)). }
    rewrite length_app in Hrun2. simpl length in Hrun2.
    rewrite Nat.add_1_r in Hrun2.
    exists s2. split_and!.
    + exact Hrun2.
    + by rewrite Hst2, <- (assoc_L (++)).
    + rewrite Htab2, Htab1. unfold run_messages. simpl.
      by rewrite record_messages_app.
    + rewrite Hp2, Hp1, <- (assoc_L (++)). done.
    + rewrite Hf2, Hf1, <- (assoc_L (++)). done.
    + congruence.
Qed.

End ExactBuild.

(** A run in which no history raises, unfolded, from any context [s]: the
    context [s1] at the end of the loop, from which the report is built and
    the last [update] made. *)
Lemma build_unfold (ctx : Context) (help_channels : list HelpChannel)
  (after_ before_ : datetime) (s : BuildContext) :
  Forall (λ hc, raises (history ctx (channel_of hc) after_ before_) = None)
         help_channels →
  ∃ s1,
    build ctx help_channels after_ before_ s
    = (inr {| after := after_; before := before_; built_at := utcnow ctx;
              channel_states := _channel_states s1;
              user_table := _user_table s1 |}, (update s1).2) ∧
    _channel_states s1 = map (scanned_state ctx after_ before_) help_channels ∧
    _user_table s1
    = record_messages (run_messages ctx after_ before_ help_channels) [] ∧
    progress s1 = progress s
                    ++ map fresh_state help_channels
                    :: scanning_states ctx after_ before_ [] help_channels ∧
    fetched s1 = fetched s ++ map channel_of help_channels.
Proof.
  intros Hok. unfold build.
  rewrite run_bind. unfold reset at 1, modify at 1. cbv beta iota zeta.
  rewrite run_bind. unfold update at 1, modify at 1. cbv beta iota zeta.
  cbn [_progress_message _built_at _channel_states _user_table progress
       fetched observed].
  rewrite run_bind. unfold gets at 1. cbv beta iota zeta.
  cbn [_progress_message _built_at _channel_states _user_table progress
       fetched observed].
  rewrite length_map, run_bind.
  match goal with |- context [for_each _ _ ?st] => set (s0 := st) end.
  destruct (scan_loop_exact ctx after_ before_ help_channels [] s0)
    as (s1 & Hrun & Hst & Htab & Hp & Hf & Hb); [done..|].
  simpl length in Hrun. rewrite Hrun.
  subst s0. cbn [_progress_message _built_at _channel_states _user_table
                 progress fetched observed] in *.
  rewrite run_bind. unfold update at 1, modify at 1. cbv beta iota zeta.
  rewrite run_bind. unfold gets at 1. cbv beta iota zeta.
  cbn [_progress_message _built_at _channel_states _user_table progress
       fetched observed id].
  rewrite Hb. unfold ret. exists s1. split_and!; try done.
  - unfold update, modify. simpl. by rewrite Hb.
  - by rewrite Hp, <- (assoc_L (++)).
Qed.

Lemma run_build_unfold (ctx : Context) (help_channels : list HelpChannel)
  (after_ before_ : datetime) :
  Forall (λ hc, raises (history ctx (channel_of hc) after_ before_) = None)
         help_channels →
  ∃ s1,
    run_build ctx help_channels after_ before_
    = (inr {| after := after_; before := before_; built_at := utcnow ctx;
              channel_states := _channel_states s1;
              user_table := _user_table s1 |}, (update s1).2) ∧
    _channel_states s1 = map (scanned_state ctx after_ before_) help_channels ∧
    _user_table s1
    = record_messages (run_messages ctx after_ before_ help_channels) [] ∧
    progress s1 = map fresh_state help_channels
                    :: scanning_states ctx after_ before_ [] help_channels ∧
    fetched s1 = map channel_of help_channels.
Proof.
  intros Hok. unfold run_build.
  destruct (build_unfold ctx help_channels after_ before_ BuildContext_init Hok)
    as (s1 & Hr & Hst & Htab & Hp & Hf).
  exists s1. by split_and!.
Qed.

(** X1: when no history raises, [build] returns the report whose channel
    states are [COMPLETE] with, per channel, the number and the summed
    length of the text messages of its history, and whose table is the one
    obtained by recording every text message in scan order; each history is
    requested once, in input order. *)
Theorem build_report_exact (ctx : Context) (help_channels : list HelpChannel)
  (after_ before_ : datetime) :
  Forall (λ hc, raises (history ctx (channel_of hc) after_ before_) = None)
         help_channels →
  let r := run_build ctx help_channels after_ before_ in
  r.1 = inr {| after := after_; before := before_; built_at := utcnow ctx;
               channel_states := map (scanned_state ctx after_ before_) help_channels;
               user_table :=
                 record_messages (run_messages ctx after_ before_ help_channels) [] |} ∧
  fetched r.2 = map channel_of help_channels.
Proof.
  intros Hok r.
  destruct (run_build_unfold ctx help_channels after_ before_ Hok)
    as (s1 & Hr & Hst & Htab & Hp & Hf).
  subst r. rewrite Hr. simpl. by rewrite Hst, Htab, Hf.
Qed.

(** The sample run: two text messages of lengths 5 and 10 and one message
    without text in the first channel, one text message of length 7 in the
    second. *)
Lemma build_report_exact_witness :
  let r := run_build Sample.ctx_ok [Sample.channel_a; Sample.channel_b]
             Sample.window_after Sample.window_before in
  r.1 = inr {| after := Sample.window_after; before := Sample.window_before;
               built_at := Sample.midnight 2024 1 5;
               channel_states :=
                 [ {| help_channel := Sample.channel_a;
                      channel := channel_of Sample.channel_a;
                      status := COMPLETE; total_messages := Some 2;
                      total_message_length := Some 15 |};
                   {| help_channel := Sample.channel_b;
                      channel := channel_of Sample.channel_b;
                      status := COMPLETE; total_messages := Some 1;
                      total_message_length := Some 7 |} ];
               user_table := [ (101, [((2024, 1, 1), 15); ((2024, 1, 2), 7)]) ] |}.
Proof.
  assert (Hok : Forall (λ hc, raises (history Sample.ctx_ok (channel_of hc)
                                  Sample.window_after Sample.window_before) = None)
                  [Sample.channel_a; Sample.channel_b]) by (repeat constructor).
  destruct (build_report_exact Sample.ctx_ok [Sample.channel_a; Sample.channel_b]
              Sample.window_after Sample.window_before Hok) as [Hr _].
  exact Hr.
Defined.

(** X2: after the loop body has handled a sequence of messages, the entry of
    every author and day has grown by the summed length of that author's text
    messages of that day, and by nothing else. *)
Theorem user_table_entries (messages : list Message) (table : UserTable)
  (author : IDType) (daily_key : DailyKey) :
  table_entry (record_messages messages table) author daily_key
  = table_entry table author daily_key + entry_total author daily_key messages.
Proof.
  revert table. induction messages as [|message messages IH]; intros table.
  - simpl. lia.
  - rewrite record_messages_cons, IH. simpl entry_total.
    destruct (content message) as [text|]; [|done].
    case_decide as Hd.
    + destruct Hd as [<- <-]. rewrite record_message_entry. lia.
    + rewrite record_message_other; [done|]. intros [=]. by apply Hd.
Qed.

(** X3: for a table built from the empty one, [get_user_results] has one row
    per author of a text message, in order of first appearance; the score is
    the summed length of the author's text messages and [days_active] the
    number of distinct days on which they wrote one. *)
Theorem user_results_of_messages (self : HelpChatReport) (messages : list Message) :
  user_table self = record_messages messages [] →
  get_user_results self
  = map (λ author,
           (author, author_total author messages,
            Z.of_nat (length (first_seen (text_days author messages)))))
        (first_seen (text_authors messages)).
Proof.
  intros Htable.
  assert (Hkeys : Dict.keys (user_table self) = first_seen (text_authors messages))
    by (by rewrite Htable, record_messages_keys).
  rewrite get_user_results_by_key by (rewrite Hkeys; apply first_seen_NoDup).
  rewrite Hkeys. apply map_ext. intros author. rewrite Htable. f_equal; [f_equal|].
  - rewrite record_messages_score. unfold score_of. simpl. unfold sum_ints. simpl. lia.
  - f_equal.
    rewrite <- (length_fmap fst (default [] (Dict.get author (record_messages messages [])))).
    change (fst <$> ?d) with (Dict.keys d).
    by rewrite record_messages_days.
Qed.

(** The messages of the sample run. *)
Lemma user_results_of_messages_witness :
  let messages := run_messages Sample.ctx_ok Sample.window_after Sample.window_before
                    [Sample.channel_a; Sample.channel_b] in
  get_user_results
    {| after := Sample.window_after; before := Sample.window_before;
       built_at := Sample.midnight 2024 1 5; channel_states := [];
       user_table := record_messages messages [] |}
  = [(101, 22, 2)].
Proof.
  intros messages.
  exact (user_results_of_messages
           {| after := Sample.window_after; before := Sample.window_before;
              built_at := Sample.midnight 2024 1 5; channel_states := [];
              user_table := record_messages messages [] |} messages eq_refl).
Defined.

(** ** The progress message *)

Section ProgressText.

Variable help_channels : list HelpChannel.
Variables after_ before_ : datetime.

Lemma build_progress_text_of (states : list ChannelState) :
  build_progress_text help_channels after_ before_ states
  = progress_text_of help_channels after_ before_ (statuses states)
      match get_states_in_progress states with
      | _ :: _ => "Scanning: "
                    +:+ join " " (map (λ state, mention (channel state))
                                      (get_states_in_progress states))
      | [] => if is_finished states then "Done!" else ""
      end.
Proof.
  unfold build_progress_text, progress_text_of, statuses. by rewrite map_map.
Qed.

Lemma in_progress_none (states : list ChannelState) :
  Forall (λ cs, status cs ≠ IN_PROGRESS) states →
  get_states_in_progress states = [].
Proof.
  intros H. unfold get_states_in_progress, get_states_with_status.
  induction H as [|cs states Hcs _ IH]; [done|].
  by rewrite filter_cons_False.
Qed.

Lemma is_finished_complete (states : list ChannelState) :
  Forall (λ cs, status cs = COMPLETE) states → is_finished states = true.
Proof.
  intros H. unfold is_finished. apply forallb_forall. intros cs Hin.
  apply bool_decide_eq_true. rewrite Forall_forall in H. apply H.
  by apply list_elem_of_In.
Qed.

(** The text while one channel is scanned: the channels before it done, the
    ones after it untouched. *)
Lemma scanning_text (done rest : list ChannelState) (cs : ChannelState) :
  Forall (λ cs, status cs = COMPLETE) done →
  Forall (λ cs, status cs = INCOMPLETE) rest →
  status cs = IN_PROGRESS →
  build_progress_text help_channels after_ before_ (done ++ cs :: rest)
  = progress_text_of help_channels after_ before_
      (replicate (length done) COMPLETE ++ [IN_PROGRESS]
         ++ replicate (length rest) INCOMPLETE)
      ("Scanning: " +:+ mention (channel cs)).
Proof.
  intros Hdone Hrest Hcs. rewrite build_progress_text_of.
  assert (Hip : get_states_in_progress (done ++ cs :: rest) = [cs]).
  { unfold get_states_in_progress, get_states_with_status.
    rewrite filter_app, filter_cons_True by done.
    fold (get_states_with_status IN_PROGRESS done).
    fold (get_states_with_status IN_PROGRESS rest).
    fold (get_states_in_progress done). fold (get_states_in_progress rest).
    rewrite !in_progress_none; [done|..].
    - eapply Forall_impl; [exact Hrest|]. intros ? ->. done.
    - eapply Forall_impl; [exact Hdone|]. intros ? ->. done. }
  rewrite Hip. simpl. f_equal.
  unfold statuses. rewrite map_app. simpl.
  fold (statuses done). fold (statuses rest).
  by rewrite (statuses_replicate COMPLETE done), (statuses_replicate INCOMPLETE rest), Hcs.
Qed.

End ProgressText.

Lemma status_scanned_state (ctx : Context) (after_ before_ : datetime)
  (hcs : list HelpChannel) :
  Forall (λ cs, status cs = COMPLETE) (map (scanned_state ctx after_ before_) hcs).
Proof. apply Forall_map, Forall_true. done. Qed.

Lemma status_fresh_state (hcs : list HelpChannel) :
  Forall (λ cs, status cs = INCOMPLETE) (map fresh_state hcs).
Proof. apply Forall_map, Forall_true. done. Qed.

(** The texts rendered while the channels of [todo] are scanned in turn. *)
Lemma scanning_states_texts (ctx : Context) (help_channels : list HelpChannel)
  (after_ before_ : datetime) (todo : list HelpChannel) :
  ∀ done : list ChannelState,
    Forall (λ cs, status cs = COMPLETE) done →
    (length done + length todo = length help_channels)%nat →
    map (build_progress_text help_channels after_ before_)
        (scanning_states ctx after_ before_ done todo)
    = imap (λ k hc,
              progress_text_of help_channels after_ before_
                (scanning_snapshot (length help_channels) (length done + k))
                ("Scanning: " +:+ mention (channel_of hc)))
           todo.
Proof.
  induction todo as [|hc rest IH]; intros earlier Hdone Hlen; [done|].
  simpl scanning_states. rewrite map_cons. simpl imap. f_equal.
  - rewrite scanning_text; [|done|apply status_fresh_state|done].
    unfold scanning_snapshot. rewrite length_map, Nat.add_0_r.
    simpl in Hlen. do 4 f_equal. lia.
  - rewrite IH.
    + apply imap_ext. intros k hc' _. simpl.
      rewrite length_app. simpl. do 2 f_equal. lia.
    + apply Forall_app. split; [done|]. by repeat constructor.
    + rewrite length_app. simpl in *. lia.
Qed.

(** X4: in a run in which no history raises, the progress message reads, in
    turn: no status line (or [Done!] when there is no channel at all); then
    for each channel in input order [Scanning:] followed by the mention of
    that channel alone, the glyphs showing the channels before it complete
    and the ones after it incomplete; and at last [Done!] with every glyph
    complete. *)
Theorem build_progress_texts (ctx : Context) (help_channels : list HelpChannel)
  (after_ before_ : datetime) :
  Forall (λ hc, raises (history ctx (channel_of hc) after_ before_) = None)
         help_channels →
  let n := length help_channels in
  let text := progress_text_of help_channels after_ before_ in
  map (build_progress_text help_channels after_ before_)
      (progress (run_build ctx help_channels after_ before_).2)
  = text (replicate n INCOMPLETE) (if decide (n = 0%nat) then "Done!" else "")
      :: imap (λ k hc, text (scanning_snapshot n k)
                            ("Scanning: " +:+ mention (channel_of hc)))
              help_channels
      ++ [text (replicate n COMPLETE) "Done!"].
Proof.
  intros Hok n text.
  destruct (run_build_unfold ctx help_channels after_ before_ Hok)
    as (s1 & Hr & Hst & _ & Hp & _).
  rewrite Hr. simpl. rewrite map_app, Hp, Hst. simpl. f_equal; [|f_equal].
  - rewrite build_progress_text_of.
    rewrite in_progress_none
      by (eapply Forall_impl; [apply status_fresh_state|]; by intros ? ->).
    rewrite (statuses_replicate INCOMPLETE) by apply status_fresh_state.
    rewrite length_map. fold n. fold text. f_equal.
    subst n. by destruct help_channels.
  - by apply (scanning_states_texts ctx help_channels after_ before_ help_channels []).
  - rewrite build_progress_text_of.
    rewrite in_progress_none
      by (eapply Forall_impl; [apply status_scanned_state|]; by intros ? ->).
    rewrite is_finished_complete by apply status_scanned_state.
    rewrite (statuses_replicate COMPLETE) by apply status_scanned_state.
    by rewrite length_map.
Qed.

(** The texts of the sample run over two channels end in [Done!]. *)
Lemma build_progress_texts_witness :
  let texts := map (build_progress_text [Sample.channel_a; Sample.channel_b]
                      Sample.window_after Sample.window_before)
                   (progress (run_build Sample.ctx_ok
                                [Sample.channel_a; Sample.channel_b]
                                Sample.window_after Sample.window_before).2) in
  let text := progress_text_of [Sample.channel_a; Sample.channel_b]
                Sample.window_after Sample.window_before in
  texts = [ text [INCOMPLETE; INCOMPLETE] "";
            text [IN_PROGRESS; INCOMPLETE] "Scanning: <#1>";
            text [COMPLETE; IN_PROGRESS] "Scanning: <#2>";
            text [COMPLETE; COMPLETE] "Done!" ].
Proof.
  assert (Hok : Forall (λ hc, raises (history Sample.ctx_ok (channel_of hc)
                                  Sample.window_after Sample.window_before) = None)
                  [Sample.channel_a; Sample.channel_b]) by (repeat constructor).
  exact (build_progress_texts Sample.ctx_ok [Sample.channel_a; Sample.channel_b]
           Sample.window_after Sample.window_before Hok).
Defined.

(** ** Channel states by status *)

(** X5: the three status queries split the channel states: every state is
    in exactly one of [get_states_incomplete], [get_states_in_progress] and
    [get_states_complete], each of which keeps the input order. *)
Theorem states_by_status_partition (states : list ChannelState) :
  get_states_incomplete states ++ get_states_in_progress states
    ++ get_states_complete states ≡ₚ states ∧
  (length (get_states_incomplete states) + length (get_states_in_progress states)
   + length (get_states_complete states) = length states)%nat ∧
  ∀ v, get_states_with_status v states `sublist_of` states ∧
       Forall (λ cs, status cs = v) (get_states_with_status v states).
Proof.
  assert (Hperm : get_states_incomplete states ++ get_states_in_progress states
                    ++ get_states_complete states ≡ₚ states).
  { unfold get_states_incomplete, get_states_in_progress, get_states_complete,
      get_states_with_status.
    induction states as [|cs states IH]; [done|].
    rewrite !filter_cons. destruct (status cs) eqn:Hcs; simpl.
    - by rewrite IH.
    - rewrite <- Permutation_middle. by rewrite IH.
    - rewrite (assoc_L (++)), <- Permutation_middle, <- (assoc_L (++)). by rewrite IH. }
  split_and!.
  - exact Hperm.
  - rewrite <- (Permutation_length Hperm), !length_app. lia.
  - intros v. unfold get_states_with_status. split.
    + apply sublist_filter.
    + apply Forall_forall. by intros cs [? _]%list_elem_of_filter.
Qed.

(** X6: [is_finished] holds exactly when no channel is incomplete and none
    is in progress; in particular it holds of an empty channel list. *)
Theorem is_finished_iff (states : list ChannelState) :
  is_finished states = true
  ↔ get_states_incomplete states = [] ∧ get_states_in_progress states = [].
Proof.
  unfold is_finished, get_states_incomplete, get_states_in_progress,
    get_states_with_status.
  induction states as [|cs states IH]; [done|].
  simpl forallb. rewrite andb_true_iff, IH, bool_decide_eq_true, !filter_cons.
  destruct (status cs) eqn:Hcs; simpl; split.
  - by intros [? _].
  - by intros [? _].
  - by intros [? _].
  - by intros [_ ?].
  - by intros [_ ?].
  - by intros ?.
Qed.

(** ** The leaderboard, in closed form *)

Lemma rows_loop_closed (options : HelpChatSummaryOptions) (rows : list Row) :
  StronglySorted (λ r1 r2, row_score r2 ≤ row_score r1) rows →
  ∀ i, rows_loop options i rows
       = take (Z.to_nat (max_rows options - i))
              (filter (λ row, min_score options ≤ row_score row) rows).
Proof.
  induction 1 as [|[[user_id score] days_active] rows Hrows IH Hle]; intros i.
  - by rewrite filter_nil, take_nil.
  - simpl rows_loop. rewrite filter_cons.
    destruct (i >=? max_rows options) eqn:Hi; simpl.
    { apply Z.geb_le in Hi. by replace (Z.to_nat (max_rows options - i)) with 0%nat by lia. }
    rewrite Z.geb_leb in Hi. apply Z.leb_gt in Hi.
    destruct (score <? min_score options) eqn:Hs; simpl.
    + apply Z.ltb_lt in Hs. rewrite decide_False by (unfold row_score; simpl; lia).
      assert (Hnone : filter (λ row, min_score options ≤ row_score row) rows = []).
      { clear IH Hrows. induction Hle as [|row rows Hrow _ IHle]; [done|].
        rewrite filter_cons_False; [done|]. unfold row_score in *. simpl in *. lia. }
      by rewrite Hnone, take_nil.
    + apply Z.ltb_ge in Hs. rewrite decide_True by (unfold row_score; simpl; lia).
      replace (Z.to_nat (max_rows options - i))
        with (S (Z.to_nat (max_rows options - (i + 1)))) by lia.
      simpl. by rewrite IH.
Qed.

(** X7: the rows printed by [build_summary_lines] are the first [max_rows]
    of the rows that reach [min_score], taken in descending score order; a
    [max_rows] of zero or less prints none. *)
Theorem ranked_rows_closed_form (self : HelpChatReport)
  (options : HelpChatSummaryOptions) :
  ranked_rows self options
  = take (Z.to_nat (max_rows options))
         (filter (λ row, min_score options ≤ row_score row)
                 (sorted_user_results self)) ∧
  build_summary_lines self options
  = summary_header self options (Z.of_nat (length (user_table self)))
      :: map row_line (ranked_rows self options).
Proof.
  split.
  - unfold ranked_rows.
    rewrite (rows_loop_closed options _ (sorted_user_results_sorted self)).
    by rewrite Z.sub_0_r.
  - unfold build_summary_lines, sorted_user_results.
    by rewrite length_sorted; unfold get_user_results; rewrite length_map.
Qed.

(** X8: when [max_rows] is at least the number of authors, the printed rows
    are exactly the authors of the table that reach [min_score], each once. *)
Theorem ranked_rows_complete (self : HelpChatReport)
  (options : HelpChatSummaryOptions) :
  Z.of_nat (length (user_table self)) ≤ max_rows options →
  ranked_rows self options
  ≡ₚ filter (λ row, min_score options ≤ row_score row) (get_user_results self).
Proof.
  intros Hroom. unfold ranked_rows.
  rewrite (rows_loop_closed options _ (sorted_user_results_sorted self)), Z.sub_0_r.
  rewrite take_ge.
  - unfold sorted_user_results. by rewrite sorted_perm.
  - etrans; [apply length_filter|].
    unfold sorted_user_results. rewrite length_sorted.
    unfold get_user_results. rewrite length_map. lia.
Qed.

(** The sample leaderboard with a threshold of 25: one author reaches it. *)
Lemma ranked_rows_complete_witness :
  ranked_rows Sample.report {| split_length := 2000; max_rows := 10; min_score := 25 |}
  ≡ₚ filter (λ row, 25 ≤ row_score row) (get_user_results Sample.report).
Proof.
  apply (ranked_rows_complete Sample.report
           {| split_length := 2000; max_rows := 10; min_score := 25 |}).
  simpl. lia.
Defined.

(** ** Sending the summary *)

(** X9: [summarize] sends one message per batch and nothing else: a reply
    with the fixed text for the first batch, then plain sends without text;
    the embed descriptions are the batches in order, and every embed carries
    the footer ["k of n"] when there is more than one batch and no footer
    when there is one. *)
Theorem summarize_messages (self : HelpChatReport)
  (split_length max_rows min_score : Z) :
  let options := {| split_length := split_length; max_rows := max_rows;
                    min_score := min_score |} in
  let batches := batch_summary_text self options in
  let n := Z.of_nat (length batches) in
  ∃ sent,
    summarize self split_length max_rows min_score = inr sent ∧
    map (λ m, description (sent_embed m)) sent = batches ∧
    (∀ k m, sent !! k = Some m →
       footer (sent_embed m)
       = if 1 <? n
         then Some (str_of_int (Z.of_nat k + 1) +:+ " of " +:+ str_of_int n)
         else None) ∧
    (∀ k m, sent !! k = Some m →
       match m with
       | Reply text _ => k = 0%nat ∧ text = "The results are in:"
       | Send text _ => k ≠ 0%nat ∧ text = None
       end).
Proof.
  intros options batches n. unfold summarize. simpl.
  fold options. fold batches. fold n.
  assert (Hne : batches ≠ []).
  { unfold batches, batch_summary_text. by apply batch_loop_nonempty_lines. }
  destruct batches as [|first_batch rest] eqn:Hb; [done|].
  eexists. split; [reflexivity|]. split_and!.
  - simpl. f_equal.
    assert (Haux : ∀ (f : nat → string → Sent) (l : list string),
              (∀ i b, description (sent_embed (f i b)) = b) →
              map (λ m, description (sent_embed m)) (imap f l) = l).
    { intros f l. revert f. induction l as [|b l IH]; intros f Hf; [done|].
      rewrite imap_cons. simpl. rewrite Hf. f_equal. apply IH. intros i b'. apply Hf. }
    by apply Haux.
  - intros [|k] m Hm; simpl in Hm.
    + by injection Hm as <-.
    + apply list_lookup_imap_Some in Hm as (b & _ & ->). simpl.
      by replace (Z.of_nat k + 2) with (Z.of_nat (S k) + 1) by lia.
  - intros [|k] m Hm; simpl in Hm.
    + by injection Hm as <-.
    + by apply list_lookup_imap_Some in Hm as (b & _ & ->).
Qed.

(** ** More on the batches *)

Lemma summary_header_nonempty (self : HelpChatReport)
  (options : HelpChatSummaryOptions) (count_results : Z) :
  summary_header self options count_results ≠ "".
Proof. intros H. apply (f_equal truthy) in H. discriminate H. Qed.

Lemma row_line_nonempty (row : Row) : row_line row ≠ "".
Proof.
  destruct row as [[user_id score] days_active].
  intros H. apply (f_equal truthy) in H. discriminate H.
Qed.

Lemma last_map_nonempty {A} (f : A → string) (l : list A) (x : string) :
  (∀ a, f a ≠ "") → x ≠ "" → last (x :: map f l) ≠ Some "".
Proof.
  intros Hf Hx. revert x Hx. induction l as [|a l IH]; intros x Hx.
  - simpl. congruence.
  - simpl map. rewrite last_cons_cons. apply IH, Hf.
Qed.

(** X10: the batches of a report, joined with newlines, are a newline
    followed by the summary lines joined with newlines: batching keeps every
    line, whole and in order, and puts one newline in front. *)
Theorem report_batches_join (self : HelpChatReport)
  (options : HelpChatSummaryOptions) :
  join nl (batch_summary_text self options)
  = nl +:+ join nl (build_summary_lines self options).
Proof.
  unfold batch_summary_text, batch_lines, build_summary_lines.
  rewrite batch_loop_join.
  - by rewrite join_cons.
  - rewrite last_cons_cons.
    apply last_map_nonempty; [apply row_line_nonempty|apply summary_header_nonempty].
Qed.

(** X11: with a [split_length] of zero or less nothing ever fits, and the
    batches are the empty accumulator followed by every line on its own. *)
Theorem batch_lines_nonpositive_limit (split_length : Z) (lines : list string) :
  split_length ≤ 0 → lines ≠ [] → last lines ≠ Some "" →
  batch_lines split_length lines = "" :: lines.
Proof.
  intros Hlimit Hne Hlast. unfold batch_lines.
  assert (Haux : ∀ batch, last (batch :: lines) ≠ Some "" →
            batch_loop split_length batch lines = batch :: lines).
  { clear Hne Hlast. induction lines as [|line rest IH]; intros batch Hl.
    - simpl in *. rewrite (proj2 (truthy_true batch)); [done|congruence].
    - simpl batch_loop. pose proof (len_nonneg batch). pose proof (len_nonneg line).
      case_match eqn:Hfit.
      { apply Z.leb_le in Hfit. rewrite !len_app, len_nl in Hfit. lia. }
      f_equal. apply IH. by rewrite last_cons_cons in Hl. }
  apply Haux. by destruct lines.
Qed.

Lemma batch_lines_nonpositive_limit_witness :
  batch_lines 0 ["abc"; "de"] = [""; "abc"; "de"].
Proof. apply batch_lines_nonpositive_limit; [lia|done|simpl; congruence]. Defined.

Lemma nom_batches_empty_iff_aux (nom_summary_batch_length : Z)
  (states : list ChannelState) :
  Nom.batch_summary_text nom_summary_batch_length states = [] ↔ states = [].
Proof.
  unfold Nom.batch_summary_text, batch_lines. split.
  - intros [_ Hl]%batch_loop_nil. unfold Nom.build_summary_lines in Hl.
    by destruct states.
  - by intros ->.
Qed.

(** ** The run of the sibling context *)

Section NomScan.

Variable ctx : Context.
Variables after_ before_ : datetime.
Implicit Types (done todo : list ChannelState) (s : BuildContext).

Lemma nom_scan_history_exact done todo (h : History) : ∀ cs s m l,
  _channel_states s = done ++ cs :: todo →
  total_messages cs = Some m →
  total_message_length cs = Some l →
  ∃ s' cs',
    NomRun.scan_history (length done) h s
    = (match raises h with Some e => inl e | None => inr tt end, s') ∧
    _channel_states s' = done ++ cs' :: todo ∧
    help_channel cs' = help_channel cs ∧ channel cs' = channel cs ∧
    status cs' = status cs ∧
    total_messages cs' = Some (m + Z.of_nat (length (text_lengths (yielded h)))) ∧
    total_message_length cs' = Some (l + sum_ints (text_lengths (yielded h))) ∧
    progress s' = progress s ∧ fetched s' = fetched s.
Proof.
  induction h as [|message rest IH|e]; intros cs s m l Hst Hm Hl.
  - exists s, cs. simpl. rewrite !Z.add_0_r. by split_and!.
  - simpl NomRun.scan_history. rewrite run_bind.
    destruct (content message) as [text|] eqn:Hc.
    + rewrite (nom_scan_message_text done todo cs s message text m l Hst Hc Hm Hl).
      cbv zeta.
      match goal with |- context [NomRun.scan_history _ _ ?st] => set (s1 := st) end.
      destruct (IH (set_total_message_length (Some (l + len text))
                      (set_total_messages (Some (m + 1)) cs)) s1 (m + 1) (l + len text))
        as (s' & cs' & Hrun & Hst' & Hhc & Hch & Hstat & Hm' & Hl' & Hp & Hf);
        [done..|].
      exists s', cs'. simpl raises. simpl yielded.
      rewrite (text_lengths_cons_text _ _ _ Hc), sum_ints_cons.
      split_and!; try done.
      * rewrite Hm'. f_equal. simpl length. lia.
      * rewrite Hl'. f_equal. lia.
    + assert (Hskip : Nom.scan_message (length done) message s = (inr tt, s))
        by (unfold Nom.scan_message; by rewrite Hc).
      rewrite Hskip.
      destruct (IH cs s m l Hst Hm Hl)
        as (s' & cs' & Hrun & Hst' & Hhc & Hch & Hstat & Hm' & Hl' & Hp & Hf).
      exists s', cs'. simpl raises. simpl yielded.
      rewrite (text_lengths_cons_none _ _ Hc).
      by split_and!.
  - exists s, cs. simpl. rewrite !Z.add_0_r. by split_and!.
Qed.

Lemma nom_scan_body_exact done todo cs s :
  _channel_states s = done ++ cs :: todo →
  let h := history ctx (channel cs) after_ before_ in
  ∃ s' cs',
    NomRun.scan_body ctx after_ before_ (length done) s
    = (match raises h with Some e => inl e | None => inr tt end, s') ∧
    _channel_states s' = done ++ cs' :: todo ∧
    help_channel cs' = help_channel cs ∧ channel cs' = channel cs ∧
    status cs' = match raises h with Some _ => status cs | None => COMPLETE end ∧
    total_messages cs' = Some (Z.of_nat (length (text_lengths (yielded h)))) ∧
    total_message_length cs' = Some (sum_ints (text_lengths (yielded h))) ∧
    progress s' = progress s ∧
    fetched s' = fetched s ++ [channel cs].
Proof.
  intros Hst h. unfold NomRun.scan_body.
  rewrite run_bind, (read_state_run _ _ cs) by (rewrite Hst; apply lookup_middle).
  rewrite run_bind. unfold open_history at 1. rewrite run_bind.
  unfold modify at 1. cbv beta iota zeta.
  change (ret ?h0 ?s0) with (@inr Exn History h0, s0). cbv beta iota.
  rewrite run_bind. unfold write_state at 1, modify at 1. cbv beta iota zeta.
  cbn [_progress_message _built_at _channel_states _user_table progress
       fetched observed].
  rewrite Hst, alter_middle.
  rewrite run_bind. unfold write_state at 1, modify at 1. cbv beta iota zeta.
  cbn [_progress_message _built_at _channel_states _user_table progress
       fetched observed].
  rewrite alter_middle.
  set (cs3 := set_total_message_length (Some 0) (set_total_messages (Some 0) cs)).
  fold h. rewrite run_bind.
  match goal with |- context [NomRun.scan_history _ _ ?st] => set (s3 := st) end.
  destruct (nom_scan_history_exact done todo h cs3 s3 0 0)
    as (s4 & cs4 & Hrun & Hst4 & Hhc & Hch & Hstat & Hm & Hl & Hp & Hf);
    [done..|].
  rewrite Hrun. rewrite !Z.add_0_l in *.
  subst s3. cbn [_progress_message _built_at _channel_states _user_table
                 progress fetched observed] in *.
  destruct (raises h) as [e|].
  - exists s4, cs4. by split_and!.
  - unfold write_state, modify. rewrite Hst4, alter_middle.
    eexists _, (set_status COMPLETE cs4).
    by split_and!; cbn [_progress_message _built_at _channel_states _user_table
                        progress fetched observed].
Qed.

End NomScan.

Section NomLoop.

Variable ctx : Context.
Variables after_ before_ : datetime.
Variable nom_summary_batch_length : Z.
Variable author_mention : string.

Lemma is_finished_not_complete (done todo : list ChannelState) (cs : ChannelState) :
  status cs ≠ COMPLETE → is_finished (done ++ cs :: todo) = false.
Proof.
  intros Hcs. unfold is_finished. rewrite forallb_app. simpl.
  rewrite bool_decide_eq_false_2 by done. simpl. apply andb_false_r.
Qed.

Lemma nm_for_each_cons {A} (body : A → NomRun.NM unit) (x : A) (xs : list A)
  (st : NomRun.NomContext) :
  NomRun.nm_for_each body (x :: xs) st
  = match body x st with
    | (inl e, st') => (inl e, st')
    | (inr _, st') => NomRun.nm_for_each body xs st'
    end.
Proof. reflexivity. Qed.

(** One turn of the loop of [run]: its [update] sends no summary, because
    the channel it has just marked is in progress. *)
Lemma nom_scan_channel_exact (done todo : list ChannelState) (cs : ChannelState)
  (st : NomRun.NomContext) :
  _channel_states (NomRun.base st) = done ++ cs :: todo →
  let h := history ctx (channel cs) after_ before_ in
  ∃ st' cs',
    NomRun.scan_channel ctx after_ before_ nom_summary_batch_length author_mention
      (length done) st
    = (match raises h with Some e => inl e | None => inr tt end, st') ∧
    _channel_states (NomRun.base st') = done ++ cs' :: todo ∧
    help_channel cs' = help_channel cs ∧ channel cs' = channel cs ∧
    status cs' = match raises h with Some _ => IN_PROGRESS | None => COMPLETE end ∧
    total_messages cs' = Some (Z.of_nat (length (text_lengths (yielded h)))) ∧
    total_message_length cs' = Some (sum_ints (text_lengths (yielded h))) ∧
    progress (NomRun.base st')
    = progress (NomRun.base st) ++ [done ++ set_status IN_PROGRESS cs :: todo] ∧
    fetched (NomRun.base st') = fetched (NomRun.base st) ++ [channel cs] ∧
    NomRun._summary_messages st' = NomRun._summary_messages st.
Proof.
  intros Hst h. unfold NomRun.scan_channel, NomRun.nm_bind.
  unfold NomRun.lift at 1, write_state at 1, modify at 1. cbv beta iota zeta.
  rewrite Hst, alter_middle.
  unfold NomRun.update, NomRun.nm_bind, NomRun.lift at 1, update at 1, modify at 1.
  cbv beta iota zeta.
  cbn [_progress_message _built_at _channel_states _user_table progress
       fetched observed NomRun.base NomRun._summary_messages].
  rewrite is_finished_not_complete by done. cbv beta iota zeta. simpl andb.
  cbv beta iota.
  unfold NomRun.lift.
  cbn [_progress_message _built_at _channel_states _user_table progress
       fetched observed NomRun.base NomRun._summary_messages].
  match goal with |- context [NomRun.scan_body _ _ _ _ ?s0] => set (s1 := s0) end.
  destruct (nom_scan_body_exact ctx after_ before_ done todo
              (set_status IN_PROGRESS cs) s1)
    as (s2 & cs2 & Hrun & Hst2 & Hhc & Hch & Hstat & Hm & Hl & Hp & Hf); [done|].
  simpl channel in *. fold h in Hrun, Hstat, Hm, Hl. rewrite Hrun.
  exists {| NomRun.base := s2;
            NomRun._summary_messages := NomRun._summary_messages st |}, cs2.
  subst s1. cbn [_progress_message _built_at _channel_states _user_table progress
                 fetched observed NomRun.base NomRun._summary_messages] in *.
  by split_and!.
Qed.

(** The loop of [run] over the channels of [todo], none of whose histories
    raises; the channel states in [tail] are not reached. *)
Lemma nom_loop_exact (todo : list HelpChannel) :
  ∀ (done tail : list ChannelState) (st : NomRun.NomContext),
    _channel_states (NomRun.base st) = done ++ map fresh_state todo ++ tail →
    Forall (λ hc, raises (history ctx (channel_of hc) after_ before_) = None) todo →
    ∃ st',
      NomRun.nm_for_each
        (NomRun.scan_channel ctx after_ before_ nom_summary_batch_length author_mention)
        (seq (length done) (length todo)) st
      = (inr tt, st') ∧
      _channel_states (NomRun.base st')
      = done ++ map (scanned_state ctx after_ before_) todo ++ tail ∧
      progress (NomRun.base st')
      = progress (NomRun.base st)
          ++ map (λ states, states ++ tail)
                 (scanning_states ctx after_ before_ done todo) ∧
      fetched (NomRun.base st') = fetched (NomRun.base st) ++ map channel_of todo ∧
      NomRun._summary_messages st' = NomRun._summary_messages st.
Proof.
  induction todo as [|hc rest IH]; intros earlier tail st Hst Hok.
  - exists st. simpl in *. rewrite !app_nil_r in *. by split_and!.
  - apply Forall_cons in Hok as [Hhc Hok].
    simpl length. simpl seq. rewrite nm_for_each_cons.
    destruct (nom_scan_channel_exact earlier (map fresh_state rest ++ tail)
                (fresh_state hc) st Hst)
      as (st1 & cs1 & Hrun & Hst1 & Hhc1 & Hch1 & Hstat1 & Hm1 & Hl1
          & Hp1 & Hf1 & Hs1).
    simpl channel in *. rewrite Hhc in *. rewrite Hrun.
    assert (cs1 = scanned_state ctx after_ before_ hc) as ->
      by (by apply scanned_state_of).
    destruct (IH (earlier ++ [scanned_state ctx after_ before_ hc]) tail st1)
      as (st2 & Hrun2 & Hst2 & Hp2 & Hf2 & Hs2); [|done|].
    { by rewrite Hst1, <- (assoc_L (++)). }
    rewrite length_app in Hrun2. simpl length in Hrun2.
    rewrite Nat.add_1_r in Hrun2.
    exists st2. split_and!.
    + exact Hrun2.
    + by rewrite Hst2, <- (assoc_L (++)).
    + rewrite Hp2, Hp1, <- !(assoc_L (++)). simpl. by rewrite <- !(assoc_L (++)).
    + rewrite Hf2, Hf1, <- (assoc_L (++)). done.
    + congruence.
Qed.

End NomLoop.

Section NomRunFacts.

Variable ctx : Context.
Variables after_ before_ : datetime.
Variable nom_summary_batch_length : Z.
Variable author_mention : string.

Lemma nm_for_each_app {A} (body : A → NomRun.NM unit) (xs ys : list A)
  (st : NomRun.NomContext) :
  NomRun.nm_for_each body (xs ++ ys) st
  = match NomRun.nm_for_each body xs st with
    | (inl e, st') => (inl e, st')
    | (inr _, st') => NomRun.nm_for_each body ys st'
    end.
Proof.
  revert st. induction xs as [|x xs IH]; intros st; [done|].
  simpl app. rewrite !nm_for_each_cons.
  destruct (body x st) as [[e|[]] st']; [done|]. apply IH.
Qed.

Lemma is_finished_fresh (hcs : list HelpChannel) :
  hcs ≠ [] → is_finished (map fresh_state hcs) = false.
Proof. destruct hcs as [|hc hcs]; [done|]. intros _. reflexivity. Qed.

(** The context after [reset] and the first [update], for at least one
    channel: the progress message is out, no summary is. *)
Lemma nom_run_start (help_channels : list HelpChannel) (st : NomRun.NomContext) :
  help_channels ≠ [] →
  ∃ st0,
    NomRun.nm_bind (NomRun.reset help_channels)
      (λ _, NomRun.update nom_summary_batch_length author_mention) st
    = (inr tt, st0) ∧
    _channel_states (NomRun.base st0) = map fresh_state help_channels ∧
    progress (NomRun.base st0)
    = progress (NomRun.base st) ++ [map fresh_state help_channels] ∧
    fetched (NomRun.base st0) = fetched (NomRun.base st) ∧
    NomRun._summary_messages st0 = None.
Proof.
  intros Hne.
  unfold NomRun.nm_bind, NomRun.reset, NomRun.nm_bind, NomRun.lift,
    NomRun.reset_base, NomRun.set_summary_messages, modify.
  cbv beta iota zeta.
  cbn [_progress_message _built_at _channel_states _user_table progress
       fetched observed NomRun.base NomRun._summary_messages].
  unfold NomRun.update, NomRun.nm_bind, NomRun.lift, update, modify.
  cbv beta iota zeta.
  cbn [_progress_message _built_at _channel_states _user_table progress
       fetched observed NomRun.base NomRun._summary_messages].
  fold fresh_state.
  change (map (λ help_channel, ChannelState_init help_channel (channel_of help_channel))
              help_channels) with (map fresh_state help_channels).
  rewrite is_finished_fresh by done. simpl andb. cbv beta iota.
  eexists. split; [reflexivity|]. by split_and!.
Qed.

(** The last [update] of a run that reached the end of its loop. *)
Lemma nom_run_finish (states : list ChannelState) (st : NomRun.NomContext) :
  _channel_states (NomRun.base st) = states →
  Forall (λ cs, status cs = COMPLETE) states →
  NomRun._summary_messages st = None →
  NomRun.update nom_summary_batch_length author_mention st
  = match NomRun.summary_messages author_mention
            (Nom.batch_summary_text nom_summary_batch_length states) with
    | inl e =>
        (inl e, {| NomRun.base := (update (NomRun.base st)).2;
                   NomRun._summary_messages := Some [] |})
    | inr messages =>
        (inr tt, {| NomRun.base := (update (NomRun.base st)).2;
                    NomRun._summary_messages := Some messages |})
    end.
Proof.
  intros Hst Hdone Hnone.
  unfold NomRun.update, NomRun.nm_bind, NomRun.lift at 1, update at 1, modify at 1.
  cbv beta iota zeta.
  cbn [_progress_message _built_at _channel_states _user_table progress
       fetched observed NomRun.base NomRun._summary_messages].
  rewrite Hst, Hnone, is_finished_complete by done.
  rewrite bool_decide_eq_true_2 by done. simpl andb. cbv beta iota.
  unfold NomRun.set_summary_messages, NomRun.send_summary_messages.
  cbn [_progress_message _built_at _channel_states _user_table progress
       fetched observed NomRun.base NomRun._summary_messages].
  destruct (NomRun.summary_messages author_mention
              (Nom.batch_summary_text nom_summary_batch_length states));
    unfold update, modify; simpl; by rewrite ?Hst.
Qed.

End NomRunFacts.

Lemma nom_run_unfold (ctx : Context) (help_channels : list HelpChannel)
  (after_ before_ : datetime) (nom_summary_batch_length : Z)
  (author_mention : string) (st : NomRun.NomContext) :
  NomRun.run ctx help_channels after_ before_ nom_summary_batch_length
    author_mention st
  = match NomRun.nm_bind (NomRun.reset help_channels)
            (λ _, NomRun.update nom_summary_batch_length author_mention) st with
    | (inl e, st0) => (inl e, st0)
    | (inr _, st0) =>
        match NomRun.nm_for_each
                (NomRun.scan_channel ctx after_ before_ nom_summary_batch_length
                   author_mention)
                (seq 0 (length (_channel_states (NomRun.base st0)))) st0 with
        | (inl e, st1) => (inl e, st1)
        | (inr _, st1) => NomRun.update nom_summary_batch_length author_mention st1
        end
    end.
Proof.
  unfold NomRun.run, NomRun.nm_bind.
  destruct (NomRun.reset help_channels st) as [[e|[]] st']; [done|].
  destruct (NomRun.update nom_summary_batch_length author_mention st')
    as [[e|[]] st0]; done.
Qed.

(** X13: [run] on an empty channel list raises [IndexError]: the first
    [update] already finds every channel complete, decides to send the
    summary, and reads [batches[0]] of no batch.  The progress message has
    been sent by then; no summary message has. *)
Theorem nom_run_no_channels (ctx : Context) (after_ before_ : datetime)
  (nom_summary_batch_length : Z) (author_mention : string)
  (st : NomRun.NomContext) :
  let r := NomRun.run ctx [] after_ before_ nom_summary_batch_length
             author_mention st in
  r.1 = inl IndexError ∧
  NomRun._summary_messages r.2 = Some [] ∧
  progress (NomRun.base r.2) = progress (NomRun.base st) ++ [[]] ∧
  fetched (NomRun.base r.2) = fetched (NomRun.base st).
Proof. intros r. subst r. rewrite nom_run_unfold. by split_and!. Qed.

(** X14: [run] on at least one channel, when no history raises, returns
    after sending the summary once, from the last [update]: one message per
    batch of the lines of the channels, whose states are complete and carry
    the number and summed length of the text messages of their histories. *)
Theorem nom_run_sends_summary (ctx : Context) (help_channels : list HelpChannel)
  (after_ before_ : datetime) (nom_summary_batch_length : Z)
  (author_mention : string) (st : NomRun.NomContext) :
  help_channels ≠ [] →
  Forall (λ hc, raises (history ctx (channel_of hc) after_ before_) = None)
         help_channels →
  let r := NomRun.run ctx help_channels after_ before_ nom_summary_batch_length
             author_mention st in
  let states := map (scanned_state ctx after_ before_) help_channels in
  let batches := Nom.batch_summary_text nom_summary_batch_length states in
  r.1 = inr tt ∧
  _channel_states (NomRun.base r.2) = states ∧
  fetched (NomRun.base r.2) = fetched (NomRun.base st) ++ map channel_of help_channels ∧
  ∃ messages,
    NomRun._summary_messages r.2 = Some messages ∧
    NomRun.summary_messages author_mention batches = inr messages ∧
    map (λ m, description (NomRun.summary_embed m)) messages = batches.
Proof.
  intros Hne Hok r states batches. subst r. rewrite nom_run_unfold.
  destruct (nom_run_start nom_summary_batch_length author_mention help_channels st Hne)
    as (st0 & -> & Hst0 & Hp0 & Hf0 & Hs0).
  rewrite Hst0, length_map.
  destruct (nom_loop_exact ctx after_ before_ nom_summary_batch_length author_mention
              help_channels [] [] st0)
    as (st1 & Hrun & Hst1 & Hp1 & Hf1 & Hs1); [by rewrite app_nil_r|done|].
  simpl length in Hrun. rewrite Hrun.
  simpl in Hst1. rewrite app_nil_r in Hst1. fold states in Hst1.
  rewrite (nom_run_finish nom_summary_batch_length author_mention states st1 Hst1)
    by (apply status_scanned_state || congruence).
  fold batches.
  assert (Hb : batches ≠ []).
  { unfold batches. rewrite nom_batches_empty_iff_aux. subst states.
    by destruct help_channels. }
  destruct batches as [|first_batch rest] eqn:Hbatches; [done|].
  simpl. split_and!; [done|done|by rewrite Hf1, Hf0|].
  eexists. split_and!; [reflexivity|reflexivity|].
  simpl. f_equal.
  assert (Haux : ∀ (f : nat → string → NomRun.SummaryMessage) (l : list string),
            (∀ i b, description (NomRun.summary_embed (f i b)) = b) →
            map (λ m, description (NomRun.summary_embed m)) (imap f l) = l).
  { intros f l. revert f. induction l as [|b l IH]; intros f Hf; [done|].
    rewrite imap_cons. simpl. rewrite Hf. f_equal. apply IH. intros i b'. apply Hf. }
  by apply Haux.
Qed.

(** The sample run of the sibling context. *)
Lemma nom_run_sends_summary_witness :
  let r := NomRun.run Sample.ctx_ok [Sample.channel_a; Sample.channel_b]
             Sample.window_after Sample.window_before 2000 "<@9>"
             NomRun.NomContext_init in
  r.1 = inr tt ∧
  ∃ messages,
    NomRun._summary_messages r.2 = Some messages ∧
    map (λ m, description (NomRun.summary_embed m)) messages
    = Nom.batch_summary_text 2000
        (map (scanned_state Sample.ctx_ok Sample.window_after Sample.window_before)
             [Sample.channel_a; Sample.channel_b]).
Proof.
  assert (Hne : [Sample.channel_a; Sample.channel_b] ≠ []) by discriminate.
  assert (Hok : Forall (λ hc, raises (history Sample.ctx_ok (channel_of hc)
                                  Sample.window_after Sample.window_before) = None)
                  [Sample.channel_a; Sample.channel_b]) by (repeat constructor).
  destruct (nom_run_sends_summary Sample.ctx_ok [Sample.channel_a; Sample.channel_b]
              Sample.window_after Sample.window_before 2000 "<@9>"
              NomRun.NomContext_init Hne Hok)
    as (Hr & _ & _ & messages & Hs & _ & Hd).
  split; [exact Hr|]. exists messages. split; [exact Hs|exact Hd].
Defined.

(** X15: when the history of a channel raises, [run] raises the same
    exception without having sent any summary message; the histories up to
    that channel were requested, the channel is left in progress, the ones
    before it are complete and the ones after it as [reset] made them. *)
Theorem nom_run_aborts (ctx : Context) (pre post : list HelpChannel)
  (hc : HelpChannel) (after_ before_ : datetime) (nom_summary_batch_length : Z)
  (author_mention : string) (st : NomRun.NomContext) (e : Exn) :
  Forall (λ hc', raises (history ctx (channel_of hc') after_ before_) = None) pre →
  raises (history ctx (channel_of hc) after_ before_) = Some e →
  let r := NomRun.run ctx (pre ++ hc :: post) after_ before_
             nom_summary_batch_length author_mention st in
  r.1 = inl e ∧
  NomRun._summary_messages r.2 = None ∧
  fetched (NomRun.base r.2)
  = fetched (NomRun.base st) ++ map channel_of (pre ++ [hc]) ∧
  ∃ cs, _channel_states (NomRun.base r.2)
        = map (scanned_state ctx after_ before_) pre ++ cs :: map fresh_state post ∧
        status cs = IN_PROGRESS.
Proof.
  intros Hpre Hfail r. subst r. rewrite nom_run_unfold.
  destruct (nom_run_start nom_summary_batch_length author_mention
              (pre ++ hc :: post) st)
    as (st0 & -> & Hst0 & Hp0 & Hf0 & Hs0); [by destruct pre|].
  rewrite Hst0, length_map, length_app. simpl length.
  rewrite seq_app, nm_for_each_app. simpl "+"%nat.
  rewrite map_app in Hst0. simpl map in Hst0.
  destruct (nom_loop_exact ctx after_ before_ nom_summary_batch_length author_mention
              pre [] (fresh_state hc :: map fresh_state post) st0)
    as (st1 & Hrun & Hst1 & Hp1 & Hf1 & Hs1); [done..|].
  simpl length in Hrun. rewrite Hrun. simpl in Hst1.
  simpl seq. rewrite nm_for_each_cons.
  destruct (nom_scan_channel_exact ctx after_ before_ nom_summary_batch_length
              author_mention (map (scanned_state ctx after_ before_) pre)
              (map fresh_state post) (fresh_state hc) st1 Hst1)
    as (st2 & cs2 & Hrun2 & Hst2 & _ & _ & Hstat2 & _ & _ & _ & Hf2 & Hs2).
  simpl channel in *. rewrite Hfail in *. rewrite length_map in Hrun2.
  rewrite Hrun2. simpl. split_and!.
  - done.
  - congruence.
  - by rewrite Hf2, Hf1, Hf0, map_app, <- (assoc_L (++)).
  - by exists cs2.
Qed.

(** The sample run whose second history raises. *)
Lemma nom_run_aborts_witness :
  let r := NomRun.run Sample.ctx_failing [Sample.channel_a; Sample.channel_b]
             Sample.window_after Sample.window_before 2000 "<@9>"
             NomRun.NomContext_init in
  r.1 = inl (HTTPException 503) ∧ NomRun._summary_messages r.2 = None.
Proof.
  assert (Hpre : Forall (λ hc', raises (history Sample.ctx_failing (channel_of hc')
                                   Sample.window_after Sample.window_before) = None)
                   [Sample.channel_a]) by (repeat constructor).
  destruct (nom_run_aborts Sample.ctx_failing [Sample.channel_a] []
              Sample.channel_b Sample.window_after Sample.window_before 2000 "<@9>"
              NomRun.NomContext_init (HTTPException 503) Hpre eq_refl)
    as (Hr & Hs & _).
  split; [exact Hr|exact Hs].
Defined.

(** ** The pack command *)

Lemma after_first_newline_none (s : string) :
  Pack.has_newline s = false → Pack.after_first_newline s = None.
Proof.
  induction s as [|c s IH]; [done|]. simpl.
  destruct (Ascii.eqb c "010"); [done|]. apply IH.
Qed.

(** X16: the source handed to the builder is what follows the first newline
    of the command message, and the whole message when it has no newline. *)
Theorem split_last_source (head tail : string) :
  Pack.has_newline head = false →
  Pack.split_last (head +:+ nl +:+ tail) = tail ∧
  Pack.split_last head = head.
Proof.
  intros Hhead. split.
  - unfold Pack.split_last.
    assert (Hafter : Pack.after_first_newline (head +:+ nl +:+ tail) = Some tail).
    { induction head as [|c head IH]; [done|].
      rewrite app_cons. simpl in *.
      destruct (Ascii.eqb c "010"); [done|]. by apply IH. }
    by rewrite Hafter.
  - unfold Pack.split_last. by rewrite after_first_newline_none.
Qed.

Lemma split_last_source_witness :
  Pack.split_last ("!pack" +:+ nl +:+ "line one" +:+ nl +:+ "line two")
  = "line one" +:+ nl +:+ "line two".
Proof.
  assert (H : Pack.has_newline "!pack" = false) by reflexivity.
  exact (proj1 (split_last_source "!pack" ("line one" +:+ nl +:+ "line two") H)).
Defined.

(** ** Batches and the limit *)

(** X12: when the limit is not negative and no line is longer than it, no
    batch is longer than it. *)
Theorem batches_within_limit (split_length : Z) (lines : list string) :
  0 ≤ split_length →
  Forall (λ line, len line ≤ split_length) lines →
  Forall (λ batch, len batch ≤ split_length) (batch_lines split_length lines).
Proof.
  intros Hlimit Hlines. unfold batch_lines.
  assert (Haux : ∀ batch, len batch ≤ split_length →
            Forall (λ b, len b ≤ split_length) (batch_loop split_length batch lines)).
  { induction Hlines as [|line rest Hline _ IH]; intros batch Hb; simpl.
    - case_match; by repeat constructor.
    - case_match eqn:Hfit.
      + apply IH. lia.
      + constructor; [done|]. by apply IH. }
  by apply Haux.
Qed.

Lemma batches_within_limit_witness :
  Forall (λ batch, len batch ≤ 7)
         (batch_lines 7 ["abc"; "de"; "f"; "ghijklm"; "q"]).
Proof.
  apply batches_within_limit; [lia|].
  repeat (constructor; [by vm_compute|]). constructor.
Defined.

(** X18: a line longer than a limit that is not negative is yielded as a
    batch of its own, neither cut nor joined to a neighbour. *)
Theorem oversized_line_alone (split_length : Z) (pre post : list string)
  (line : string) :
  0 ≤ split_length → split_length < len line →
  ∃ before_ after_,
    batch_lines split_length (pre ++ line :: post) = before_ ++ line :: after_.
Proof.
  intros Hlimit Hlong. unfold batch_lines.
  assert (Haux : ∀ batch, ∃ before_ after_,
            batch_loop split_length batch (pre ++ line :: post)
            = before_ ++ line :: after_).
  { induction pre as [|p pre IH]; intros batch; simpl.
    - pose proof (len_nonneg batch).
      case_match eqn:Hfit.
      { apply Z.leb_le in Hfit. rewrite !len_app, len_nl in Hfit. lia. }
      destruct post as [|l2 post]; simpl.
      + rewrite truthy_len by lia. by exists [batch], [].
      + pose proof (len_nonneg l2). case_match eqn:Hfit2.
        { apply Z.leb_le in Hfit2. rewrite !len_app, len_nl in Hfit2. lia. }
        by exists [batch], (batch_loop split_length l2 post).
    - case_match.
      + apply IH.
      + destruct (IH p) as (b1 & b2 & ->). by exists (batch :: b1), b2. }
  apply Haux.
Qed.

Lemma oversized_line_alone_witness :
  ∃ before_ after_,
    batch_lines 7 (["abc"; "de"] ++ "0123456789" :: ["q"])
    = before_ ++ "0123456789" :: after_.
Proof. apply oversized_line_alone; [lia|by vm_compute]. Defined.

(** ** Running [build] again *)

(** X19: [build] starts afresh: run on a context that an earlier run has
    used, it returns the same report as on a new context when no history
    raises, and adds its progress snapshots and history requests behind the
    earlier ones. *)
Theorem build_starts_afresh (ctx : Context) (help_channels : list HelpChannel)
  (after_ before_ : datetime) (s : BuildContext) :
  Forall (λ hc, raises (history ctx (channel_of hc) after_ before_) = None)
         help_channels →
  let again := build ctx help_channels after_ before_ s in
  let first := run_build ctx help_channels after_ before_ in
  again.1 = first.1 ∧
  progress again.2 = progress s ++ progress first.2 ∧
  fetched again.2 = fetched s ++ fetched first.2.
Proof.
  intros Hok again first. subst again first. unfold run_build.
  destruct (build_unfold ctx help_channels after_ before_ s Hok)
    as (s1 & -> & Hst1 & Htab1 & Hp1 & Hf1).
  destruct (build_unfold ctx help_channels after_ before_ BuildContext_init Hok)
    as (s2 & -> & Hst2 & Htab2 & Hp2 & Hf2).
  simpl. rewrite Hst1, Htab1, Hst2, Htab2, Hp1, Hp2, Hf1, Hf2. simpl.
  by rewrite <- !(assoc_L (++)).
Qed.

(** Running the sample a second time on the context the first run left. *)
Lemma build_starts_afresh_witness :
  let first := run_build Sample.ctx_ok [Sample.channel_a; Sample.channel_b]
                 Sample.window_after Sample.window_before in
  (build Sample.ctx_ok [Sample.channel_a; Sample.channel_b]
     Sample.window_after Sample.window_before first.2).1 = first.1.
Proof.
  assert (Hok : Forall (λ hc, raises (history Sample.ctx_ok (channel_of hc)
                                  Sample.window_after Sample.window_before) = None)
                  [Sample.channel_a; Sample.channel_b]) by (repeat constructor).
  intros first.
  exact (proj1 (build_starts_afresh Sample.ctx_ok [Sample.channel_a; Sample.channel_b]
                  Sample.window_after Sample.window_before first.2 Hok)).
Defined.
